(** * Fork & Flame: the menu-data pipeline

    A shallow embedding of the menu-data acquisition and validation code:

    - [services/api.ts]: [getAllFoods] (category aggregation) and
      [searchFoods];
    - [hooks/useImageValidation.ts]: the image probe [checkImageUrl];
    - [hooks/useMenuData.ts]: [useAllFoodsWithValidation] (cache read,
      [validateImages], the value returned to the page) and
      [validateBestFoodsImages].

    Conventions.  JavaScript strings are [string]s (ASCII text), arrays are
    [list]s, [Set<string>] is [gset string], [localStorage] is a
    [gmap string _].  JavaScript numbers that hold counts and epoch
    milliseconds are integers ([nat], [Z]); the progress percentage is an
    exact rational ([Q]).  A value that may be [undefined] is an [option]. *)

From Stdlib Require Import ZArith QArith Qminmax Lia Lqa Ascii Sorted.
From stdpp Require Import base option list gmap sets strings pretty.

Local Open Scope nat_scope.

(** ** Data model ([types/index.ts]) *)

Record FoodItem := mkFood {
  id : string;
  img : string;
  name : string;
  dsc : string;
  price : Q;
  rate : Q;
  country : string;
  category : option string;
  uniqueId : option string
}.

(** JavaScript truthiness of a string and of an optional string. *)
Definition truthy (s : string) : bool :=
  match s with EmptyString => false | String _ _ => true end.

Definition truthy_opt (o : option string) : bool :=
  match o with Some s => truthy s | None => false end.

(** ** [services/api.ts] *)
Module Api.

(** What [apiClient.get] delivered in [response.data].  The aggregator only
    looks at whether the value is truthy and then calls [.map] on it:
    - [BodyFalsy]: [null], [undefined], the empty string, [0], [false];
    - [BodyArray items]: an array of food records;
    - [BodyOther raw]: any other truthy value (an object, or the raw text
      of a body that is not JSON), on which [.map] is not a function. *)
Inductive Body :=
| BodyFalsy
| BodyArray (items : list FoodItem)
| BodyOther (raw : string).

Record Response := mkResponse { status : Z; data : Body }.

(** One entry of the array [Promise.allSettled] resolves to. *)
Inductive Settled :=
| Fulfilled (value : Response)
| Rejected (reason : string).

(** The seven settled requests, in the order of the destructuring. *)
Record Results := mkResults {
  burgers : Settled;
  pizzas : Settled;
  desserts : Settled;
  drinks : Settled;
  bbqs : Settled;
  sandwiches : Settled;
  steaks : Settled
}.

Definition results_list (r : Results) : list Settled :=
  [burgers r; pizzas r; desserts r; drinks r; bbqs r; sandwiches r; steaks r].

Definition categories : list string :=
  ["burgers"; "pizzas"; "desserts"; "drinks"; "bbqs"; "sandwiches"; "steaks"].

(** [categories[index]]; out of range JavaScript yields [undefined], which
    the template literal prints as the word. *)
Definition category_at (index : nat) : string :=
  default "undefined" (categories !! index).

(** An exception raised inside the [try] block. *)
Inductive Exn := TypeError (msg : string).

Definition Exc (A : Type) : Type := Exn + A.

Definition ret {A} (a : A) : Exc A := inr a.
Definition throw {A} (e : Exn) : Exc A := inl e.
Definition bind {A B} (m : Exc A) (k : A → Exc B) : Exc B :=
  match m with inl e => inl e | inr a => k a end.

(** The two accumulators of the aggregation loop. *)
Record Acc := mkAcc { allFoods : list FoodItem; seenIds : gset string }.

(** The callback of [result.value.data.map]:
    [{...item, category: categories[index], uniqueId: `${item.id}-${categories[index]}`}]. *)
Definition stamp (index : nat) (item : FoodItem) : FoodItem :=
  {| id := id item; img := img item; name := name item; dsc := dsc item;
     price := price item; rate := rate item; country := country item;
     category := Some (category_at index);
     uniqueId := Some (id item +:+ "-" +:+ category_at index) |}.

(** The callback of [categoryData.forEach]. *)
Definition push_unique (acc : Acc) (item : FoodItem) : Acc :=
  match uniqueId item with
  | Some u =>
      if truthy u && bool_decide (u ∉ seenIds acc)
      then {| allFoods := allFoods acc ++ [item]; seenIds := {[u]} ∪ seenIds acc |}
      else acc
  | None => acc
  end.

(** The callback of the outer [forEach((result, index) => ...)]. *)
Definition on_result (acc : Acc) (index : nat) (result : Settled) : Exc Acc :=
  match result with
  | Fulfilled value =>
      match data value with
      | BodyFalsy => ret acc
      | BodyArray items =>
          let categoryData := map (stamp index) items in
          ret (foldl push_unique acc categoryData)
      | BodyOther _ => throw (TypeError "result.value.data.map is not a function")
      end
  | Rejected _ => ret acc   (* console.warn *)
  end.

(** [Array.prototype.forEach] with the running index; an exception thrown
    by the callback ends the loop. *)
Fixpoint forEach_from (index : nat) (rs : list Settled) (acc : Acc) : Exc Acc :=
  match rs with
  | [] => ret acc
  | r :: rs' => bind (on_result acc index r) (forEach_from (S index) rs')
  end.

(** The body of the [try] block, after the [await]. *)
Definition aggregate (r : Results) : Exc (list FoodItem) :=
  bind (forEach_from 0 (results_list r) {| allFoods := []; seenIds := ∅ |})
       (λ acc, ret (allFoods acc)).

(** [getAllFoods]: the [catch] clause returns the empty array. *)
Definition getAllFoods (r : Results) : list FoodItem :=
  match aggregate r with
  | inr foods => foods
  | inl _ => []
  end.

(** Helpers for stating the properties of the aggregation loop. *)

(** No character of [s] is a hyphen. *)
Fixpoint hyphen_free (s : string) : bool :=
  match s with
  | EmptyString => true
  | String c s' => negb (bool_decide (c = "-"%char)) && hyphen_free s'
  end.

(** The loop invariant: [seenIds] holds exactly the uniqueIds of [allFoods],
    and no uniqueId occurs there twice. *)
Definition AccInv (acc : Acc) : Prop :=
  NoDup (uniqueId <$> allFoods acc) ∧
  ∀ u, u ∈ seenIds acc ↔ Some u ∈ uniqueId <$> allFoods acc.

(** [f] is an item as [stamp] builds it for some category of the list. *)
Definition stamped (f : FoodItem) : Prop :=
  ∃ index, index < length categories ∧
    category f = Some (category_at index) ∧
    uniqueId f = Some (id f +:+ "-" +:+ category_at index).

(** No response carries a body on which [.map] fails. *)
Definition well_formed (r : Settled) : bool :=
  match r with
  | Fulfilled value => match data value with BodyOther _ => false | _ => true end
  | Rejected _ => true
  end.

(** The words of the aggregator's contract: the items of the successful
    categories, in category order and then in response order, each stamped
    with its category; of the items of one response that share a raw id, the
    first one stands for all. *)
Fixpoint first_by_id (seen : list string) (items : list FoodItem) : list FoodItem :=
  match items with
  | [] => []
  | x :: items' =>
      if bool_decide (id x ∈ seen) then first_by_id seen items'
      else x :: first_by_id (id x :: seen) items'
  end.

Definition successful_items (index : nat) (r : Settled) : list FoodItem :=
  match r with
  | Fulfilled value =>
      match data value with
      | BodyArray items => stamp index <$> first_by_id [] items
      | _ => []
      end
  | Rejected _ => []
  end.

Definition union_of_successes (r : Results) : list FoodItem :=
  concat (imap successful_items (results_list r)).

(** *** [searchFoods]

    Strings are ASCII text: [toLowerCase] maps the letters A-Z to a-z and
    leaves every other character alone, and [trim] removes the ASCII white
    space (tab, line feed, vertical tab, form feed, carriage return, space)
    at both ends. *)

Definition lower_ascii (c : ascii) : ascii :=
  let n := nat_of_ascii c in
  if (65 <=? n) && (n <=? 90) then ascii_of_nat (n + 32) else c.

Fixpoint toLowerCase (s : string) : string :=
  match s with
  | EmptyString => EmptyString
  | String c s' => String (lower_ascii c) (toLowerCase s')
  end.

Fixpoint trimStart (s : string) : string :=
  match s with
  | EmptyString => EmptyString
  | String c s' => if Ascii.is_space c then trimStart s' else s
  end.

Definition trimEnd (s : string) : string :=
  String.rev (trimStart (String.rev s)).

Definition trim (s : string) : string := trimEnd (trimStart s).

(** [s.includes(t)]: [t] occurs in [s] at some position. *)
Fixpoint includes (s t : string) : bool :=
  String.prefix t s ||
  match s with
  | EmptyString => false
  | String _ s' => includes s' t
  end.

(** The callback of [foods.filter]. *)
Definition matches (searchTerm : string) (food : FoodItem) : bool :=
  includes (toLowerCase (name food)) searchTerm ||
  includes (toLowerCase (dsc food)) searchTerm.

(** [foods] is [None] when the caller passed [undefined] or [null]; an
    array, even an empty one, is truthy. *)
Definition searchFoods (query : string) (foods : option (list FoodItem)) : list FoodItem :=
  match foods with
  | Some fs =>
      if negb (truthy query) then []
      else
        let searchTerm := trim (toLowerCase query) in
        List.filter (matches searchTerm) fs
  | None => []
  end.

(** The words of the description of [searchFoods]: [t] is a substring of
    [s], and [t] is a substring of [s] when the case of letters is ignored. *)
Definition substring_of (t s : string) : Prop :=
  ∃ before after, s = before +:+ t +:+ after.

Definition substring_ci (t s : string) : Prop :=
  substring_of (toLowerCase t) (toLowerCase s).

End Api.

(** ** [hooks/useImageValidation.ts] *)
Module ImageValidation.

(** What the browser does with [img.src = url], seen from the page: the
    image fires [onload] or [onerror] some milliseconds after the
    assignment, or never fires either. *)
Inductive ImageOutcome :=
| Loads (after : Z)
| Errors (after : Z)
| Hangs.

(** The state of the promise [checkImageUrl] returns. *)
Inductive PromiseState :=
| Pending
| Resolved (value : bool)
| RejectedP.

(** The probe in flight: its promise and whether the [setTimeout] timer is
    still armed. *)
Record Probe := mkProbe { promise : PromiseState; timer_armed : bool }.

(** [resolve(v)]: settles a pending promise, has no effect afterwards. *)
Definition resolve (v : bool) (p : Probe) : Probe :=
  match promise p with
  | Pending => {| promise := Resolved v; timer_armed := timer_armed p |}
  | _ => p
  end.

Definition clearTimeout (p : Probe) : Probe :=
  {| promise := promise p; timer_armed := false |}.

(** The callbacks the executor registers. *)
Inductive Event := ImgLoad | ImgError | TimerFired.

Definition handle (p : Probe) (e : Event) : Probe :=
  match e with
  | ImgLoad => resolve true (clearTimeout p)
  | ImgError => resolve false (clearTimeout p)
  | TimerFired =>
      (* a cleared timer never runs its callback *)
      if timer_armed p then resolve false (clearTimeout p) else p
  end.

(** The order in which the event loop delivers the events.  The timer is
    armed before [img.src] is assigned, so at equal times its callback runs
    first. *)
Definition schedule (timeoutMs : Z) (o : ImageOutcome) : list Event :=
  match o with
  | Loads t => if (t <? timeoutMs)%Z then [ImgLoad; TimerFired] else [TimerFired; ImgLoad]
  | Errors t => if (t <? timeoutMs)%Z then [ImgError; TimerFired] else [TimerFired; ImgError]
  | Hangs => [TimerFired]
  end.

(** [checkImageUrl(url)], run against a world that tells what each url's
    image does: the settled state of the returned promise. *)
Definition checkImageUrl (timeoutMs : Z) (world : string → ImageOutcome) (url : string)
  : PromiseState :=
  if negb (truthy url) then
    promise (resolve false {| promise := Pending; timer_armed := false |})
  else
    promise (foldl handle {| promise := Pending; timer_armed := true |}
                   (schedule timeoutMs (world url))).

(** The words of the probe's contract: the image loads within the timeout. *)
Definition loads_within (timeoutMs : Z) (world : string → ImageOutcome) (url : string) : Prop :=
  ∃ t, world url = Loads t ∧ (t < timeoutMs)%Z.

End ImageValidation.

(** ** [hooks/useMenuData.ts] *)
Module MenuData.
Import ImageValidation.

Definition VALIDATION_KEY : string := "forkFlameImageValidation".
Definition BEST_FOODS_KEY : string := "forkFlameBestFoodsValidation".

(** [24 * 60 * 60 * 1000] *)
Definition DAY_MS : Z := 24 * 60 * 60 * 1000.

(** The object [{ foods, timestamp }] kept in [localStorage].  Either
    property may be missing from a record that some other writer left. *)
Record CacheData := mkCacheData {
  foods : option (list FoodItem);
  timestamp : option Z
}.

(** A [localStorage] value: text on which [JSON.parse] (or the
    destructuring of its result) throws, or the text of a cache object. *)
Inductive Stored :=
| Unparseable (raw : string)
| Json (cacheData : CacheData).

Abbreviation Storage := (gmap string Stored).

(** [Date.now() - timestamp > 24 * 60 * 60 * 1000]; with a missing
    timestamp the subtraction is [NaN] and the comparison is false. *)
Definition isExpired (now : Z) (c : CacheData) : bool :=
  match timestamp c with
  | Some t => bool_decide (now - t > DAY_MS)%Z
  | None => false
  end.

(** The lazy initialiser of the [validatedFoods] state: the list the hook
    starts with, and [localStorage] after the read. *)
Definition initValidatedFoods (key : string) (now : Z) (ls : Storage)
  : list FoodItem * Storage :=
  match ls !! key with
  | Some (Json c) =>
      match foods c with
      | Some fs =>
          if negb (isExpired now c) && (0 <? length fs) then (fs, ls)
          else if isExpired now c then ([], delete key ls)
          else ([], ls)
      | None =>
          if isExpired now c then ([], delete key ls) else ([], ls)
      end
  | Some (Unparseable raw) =>
      if truthy raw then ([], delete key ls) else ([], ls)
  | None => ([], ls)
  end.

(** The lazy initialiser of the [hasValidated] state. *)
Definition initHasValidated (key : string) (now : Z) (ls : Storage) : bool :=
  match ls !! key with
  | Some (Json c) => negb (isExpired now c)
  | _ => false
  end.

(** The React state of [useAllFoodsWithValidation]. *)
Record State := mkState {
  validatedFoods : list FoodItem;
  isValidating : bool;
  validationProgress : Q;
  hasValidated : bool
}.

(** What a pass does to the outside, in program order: calls of the state
    setters, of the image probe and of [localStorage]. *)
Inductive Effect :=
| SetValidationProgress (progress : Q)
| SetValidatedFoods (reordered : list FoodItem)
| SetValidatedBestFoods (validFoods : list FoodItem)
| SetIsValidating (b : bool)
| SetHasValidated (b : bool)
| CheckImageUrl (url : string)
| YieldToMainThread
| SetItem (key : string) (cacheData : CacheData)
| RemoveItem (key : string).

(** [foods.slice(start, end)] for [0 <= start <= end]. *)
Definition slice {A} (start stop : nat) (l : list A) : list A :=
  take (stop - start) (drop start l).

(** The accumulators of the batch loop and the effects so far. *)
Record Loop := mkLoop {
  validFirst : list FoodItem;
  invalidWithinValidated : list FoodItem;
  trace : list Effect
}.

(** The callback of [batchResults.forEach]. *)
Definition classify (st : Loop) (r : FoodItem * bool) : Loop :=
  if r.2
  then {| validFirst := validFirst st ++ [r.1];
          invalidWithinValidated := invalidWithinValidated st;
          trace := trace st |}
  else {| validFirst := validFirst st;
          invalidWithinValidated := invalidWithinValidated st ++ [r.1];
          trace := trace st |}.

Section Render.

(** What one render of the hook closes over. *)
Variable isMobile : bool.
Variable world : string → ImageOutcome.

Definition timeoutMs : Z := if isMobile then 1200 else 2000.
Definition batchSize : nat := if isMobile then 10 else 50.
Definition validateWindow : nat := if isMobile then 30 else 80.

(** The callback of [batch.map]: [None] when the awaited probe never
    settles; a rejected probe is caught and counts as invalid. *)
Definition probeFood (food : FoodItem) : option (FoodItem * bool) :=
  match checkImageUrl timeoutMs world (img food) with
  | Resolved isValid => Some (food, isValid)
  | RejectedP => Some (food, false)
  | Pending => None
  end.

(** [((i + batchSize) / toValidate.length) * 100], capped at 100. *)
Definition batchProgress (i : nat) (len : nat) : Q :=
  Qmin ((inject_Z (Z.of_nat (i + batchSize)) / inject_Z (Z.of_nat len)) * 100) 100.

(** [for (let i = 0; i < toValidate.length; i += batchSize)].  [None]: the
    loop does not complete (a batch never settles, or the fuel is spent). *)
Fixpoint batchLoop (fuel : nat) (toValidate : list FoodItem) (i : nat) (st : Loop)
  : option Loop :=
  if bool_decide (i < length toValidate) then
    match fuel with
    | O => None
    | S fuel' =>
        let batch := slice i (i + batchSize) toValidate in
        batchResults ← mapM probeFood batch;
        let st' := foldl classify st batchResults in
        batchLoop fuel' toValidate (i + batchSize)
          {| validFirst := validFirst st';
             invalidWithinValidated := invalidWithinValidated st';
             trace := trace st ++ (CheckImageUrl ∘ img <$> batch)
                      ++ [SetValidationProgress (batchProgress i (length toValidate))]
                      ++ (if isMobile then [YieldToMainThread] else []) |}
    end
  else Some st.

(** [validateImages(foods)], called from a render whose state is [closure];
    [now] is what [Date.now()] returns when the cache object is built. *)
Definition validateImages (closure : State) (foods : list FoodItem) (now : Z)
  : option (list Effect) :=
  let validateLimit := Nat.min (length foods) validateWindow in
  let toValidate := slice 0 validateLimit foods in
  let remaining := drop validateLimit foods in
  st ← batchLoop (length toValidate) toValidate 0
        {| validFirst := []; invalidWithinValidated := [];
           trace := [SetValidationProgress 0] |};
  let reordered := validFirst st ++ invalidWithinValidated st ++ remaining in
  let cacheData := {| foods := Some (validatedFoods closure); timestamp := Some now |} in
  Some (trace st ++
        [SetValidatedFoods reordered; SetIsValidating false; SetValidationProgress 100;
         SetItem VALIDATION_KEY cacheData]).

(** [navigator.connection] *)
Record Connection := mkConnection { saveData : bool; effectiveType : string }.

(** [/(^|-)2g$/.test(effectiveType)] *)
Definition isSlow (effectiveType : string) : bool :=
  bool_decide (effectiveType = "2g") ||
  String.prefix (String.rev "-2g") (String.rev effectiveType).

(** The image validation [useEffect].  [setHasValidated(true)] runs as soon
    as [validateImages] suspends at its first [await]; the pass itself never
    writes [hasValidated], so it is listed before the effects of the pass. *)
Definition validationEffect (st : State) (resultData : option (list FoodItem))
    (connection : option Connection) (now : Z) : option (list Effect) :=
  match resultData with
  | Some data =>
      if (0 <? length data) && negb (hasValidated st) && (length (validatedFoods st) =? 0)
      then
        let save := from_option saveData false connection in
        let slow := isSlow (from_option effectiveType "" connection) in
        if isMobile && (save || slow)
        then Some [SetHasValidated true; SetIsValidating false]
        else
          tr ← validateImages st data now;
          Some (SetIsValidating true :: SetHasValidated true :: tr)
      else Some []
  | None => Some []
  end.

(** [clearCacheAndRevalidate], memoised by the render whose state is [closure]. *)
Definition clearCacheAndRevalidate (closure : State) (resultData : option (list FoodItem))
    (now : Z) : option (list Effect) :=
  let reset := [RemoveItem VALIDATION_KEY; SetHasValidated false; SetValidatedFoods [];
                SetValidationProgress 0] in
  match resultData with
  | Some data =>
      if 0 <? length data
      then tr ← validateImages closure data now; Some (reset ++ SetIsValidating true :: tr)
      else Some reset
  | None => Some reset
  end.

End Render.

(** How an effect changes the hook state and [localStorage]. *)
Definition applyEffect (s : State * Storage) (e : Effect) : State * Storage :=
  let (st, ls) := s in
  match e with
  | SetValidationProgress p =>
      ({| validatedFoods := validatedFoods st; isValidating := isValidating st;
          validationProgress := p; hasValidated := hasValidated st |}, ls)
  | SetValidatedFoods fs =>
      ({| validatedFoods := fs; isValidating := isValidating st;
          validationProgress := validationProgress st; hasValidated := hasValidated st |}, ls)
  | SetIsValidating b =>
      ({| validatedFoods := validatedFoods st; isValidating := b;
          validationProgress := validationProgress st; hasValidated := hasValidated st |}, ls)
  | SetHasValidated b =>
      ({| validatedFoods := validatedFoods st; isValidating := isValidating st;
          validationProgress := validationProgress st; hasValidated := b |}, ls)
  | SetItem key c => (st, <[key := Json c]> ls)
  | RemoveItem key => (st, delete key ls)
  | SetValidatedBestFoods _ | CheckImageUrl _ | YieldToMainThread => (st, ls)
  end.

Definition applyEffects (s : State * Storage) (tr : list Effect) : State * Storage :=
  foldl applyEffect s tr.

(** [(f as any).uniqueId || f.id] *)
Definition dedupKey (f : FoodItem) : string :=
  match uniqueId f with
  | Some u => if truthy u then u else id f
  | None => id f
  end.

(** The body of [for (const f of finalData)]. *)
Definition dedupStep (acc : list FoodItem * gset string) (f : FoodItem)
  : list FoodItem * gset string :=
  let (out, seen) := acc in
  let key := dedupKey f in
  if bool_decide (key ∉ seen) then (out ++ [f], {[key]} ∪ seen) else acc.

Definition deduped (finalData : list FoodItem) : list FoodItem :=
  (foldl dedupStep ([], ∅) finalData).1.

(** The invariant of the de-duplication loop. *)
Definition DedupInv (acc : list FoodItem * gset string) : Prop :=
  NoDup (dedupKey <$> acc.1) ∧ ∀ k, k ∈ acc.2 ↔ k ∈ dedupKey <$> acc.1.

(** The fields of the object the hook returns that come from its own state. *)
Record Return := mkReturn {
  data : list FoodItem;
  r_isValidating : bool;
  r_validationProgress : Q;
  originalData : option (list FoodItem);
  validCount : nat;
  totalCount : nat;
  r_hasValidated : bool
}.

(** The [return] of [useAllFoodsWithValidation], for the state [st] and the
    query result [resultData] ([result.data], [None] when [undefined]). *)
Definition useAllFoodsWithValidation (st : State) (resultData : option (list FoodItem))
  : Return :=
  let finalData :=
    if 0 <? length (validatedFoods st) then validatedFoods st else default [] resultData in
  {| data := deduped finalData;
     r_isValidating := isValidating st;
     r_validationProgress := validationProgress st;
     originalData := resultData;
     validCount := length (validatedFoods st);
     totalCount := from_option length 0 resultData;
     r_hasValidated := hasValidated st |}.

(** [validateBestFoodsImages(foods)] of [useBestFoods]: every probe runs
    with the 2000 ms timeout, items whose probe fails become [null] and are
    filtered out. *)
Definition probeBestFood (world : string → ImageOutcome) (food : FoodItem)
  : option (option FoodItem) :=
  match checkImageUrl 2000 world (img food) with
  | Resolved isValid => Some (if isValid then Some food else None)
  | RejectedP => Some None
  | Pending => None
  end.

Definition validateBestFoodsImages (world : string → ImageOutcome)
    (foods : list FoodItem) (now : Z) : option (list Effect) :=
  validationResults ← mapM (probeBestFood world) foods;
  let validFoods := omap (λ food, food) validationResults in
  let cacheData := {| foods := Some validFoods; timestamp := Some now |} in
  Some ((CheckImageUrl ∘ img <$> foods) ++
        [SetValidatedBestFoods validFoods; SetIsValidating false;
         SetItem BEST_FOODS_KEY cacheData]).

(** Readings of a trace. *)
Definition probedUrls (tr : list Effect) : list string :=
  omap (λ e, match e with CheckImageUrl url => Some url | _ => None end) tr.

Definition progressValues (tr : list Effect) : list Q :=
  omap (λ e, match e with SetValidationProgress p => Some p | _ => None end) tr.

Definition validatedOutputs (tr : list Effect) : list (list FoodItem) :=
  omap (λ e, match e with
             | SetValidatedFoods fs | SetValidatedBestFoods fs => Some fs
             | _ => None
             end) tr.

Definition cacheWrites (tr : list Effect) : list (string * CacheData) :=
  omap (λ e, match e with SetItem k c => Some (k, c) | _ => None end) tr.

(** Every progress update of a trace, paired with the number of probes
    started before it. *)
Fixpoint progressLog (probed : nat) (tr : list Effect) : list (nat * Q) :=
  match tr with
  | [] => []
  | CheckImageUrl _ :: tr' => progressLog (S probed) tr'
  | SetValidationProgress p :: tr' => (probed, p) :: progressLog probed tr'
  | _ :: tr' => progressLog probed tr'
  end.

End MenuData.

(** ** Vocabulary for the properties of a validation pass *)
Module PassSpec.
Import ImageValidation MenuData.

(** The verdict of the probe on an item's image, for a given timeout. *)
Definition isValid (timeoutMs : Z) (world : string → ImageOutcome) (food : FoodItem) : bool :=
  match checkImageUrl timeoutMs world (img food) with
  | Resolved b => b
  | _ => false
  end.

(** The validation window of a catalog and what lies beyond it. *)
Definition window (isMobile : bool) (foods : list FoodItem) : list FoodItem :=
  take (validateWindow isMobile) foods.

Definition beyond (isMobile : bool) (foods : list FoodItem) : list FoodItem :=
  drop (validateWindow isMobile) foods.

(** The order the validator's policy asks for: the valid items of the
    window, then its invalid items, then everything beyond the window. *)
Definition validFirstOrder (isMobile : bool) (world : string → ImageOutcome)
    (foods : list FoodItem) : list FoodItem :=
  let valid := isValid (timeoutMs isMobile) world in
  List.filter valid (window isMobile foods)
  ++ List.filter (λ f, negb (valid f)) (window isMobile foods)
  ++ beyond isMobile foods.

(** The effects of the batch loop: probes, progress updates, yields. *)
Definition isLoopEffect (e : Effect) : bool :=
  match e with
  | CheckImageUrl _ | SetValidationProgress _ | YieldToMainThread => true
  | _ => false
  end.

(** [(probed / len) * 100] *)
Definition percent (probed len : nat) : Q :=
  (inject_Z (Z.of_nat probed) / inject_Z (Z.of_nat len)) * 100.

(** The progress updates of a loop that is at index [i] of a window of
    [len] items and advances by [step]: one update per batch, made when
    [min (i + step) len] items have been probed, with that percentage. *)
Fixpoint Checkpoints (i len step : nat) (log : list (nat * Q)) : Prop :=
  match log with
  | [] => len ≤ i
  | (probed, progress) :: log' =>
      i < len ∧ probed = Nat.min (i + step) len ∧
      (progress == percent probed len)%Q ∧
      Checkpoints (i + step) len step log'
  end.

End PassSpec.

(** ** Concrete inputs used in the examples *)
Module Examples.
Import Api.

Definition food (i n : string) : FoodItem :=
  {| id := i; img := "https://img.example/" +:+ i; name := n; dsc := "";
     price := 5; rate := 4; country := "US"; category := None; uniqueId := None |}.

Definition ok (items : list FoodItem) : Settled :=
  Fulfilled {| status := 200; data := BodyArray items |}.

Definition failed : Settled := Rejected "Network Error".

(** Burgers and pizzas both use the raw id 5; the other requests fail. *)
Definition shared_id : Results :=
  {| burgers := ok [food "5" "Cheeseburger"; food "6" "Hamburger"];
     pizzas := ok [food "5" "Margherita"];
     desserts := failed; drinks := failed; bbqs := failed;
     sandwiches := failed; steaks := failed |}.

(** The burgers arrive; the pizzas endpoint answers 200 with a page that is
    not JSON, which axios hands over as the raw text; the rest fail. *)
Definition malformed_pizzas : Results :=
  {| burgers := ok [food "5" "Cheeseburger"; food "6" "Hamburger"];
     pizzas := Fulfilled {| status := 200; data := BodyOther "<html>Bad gateway</html>" |};
     desserts := failed; drinks := failed; bbqs := failed;
     sandwiches := failed; steaks := failed |}.

(** Burgers and pizzas both use the raw id 5, and the desserts endpoint
    answers 200 with a page that is not JSON; the rest fail. *)
Definition shared_id_malformed_desserts : Results :=
  {| burgers := ok [food "5" "Cheeseburger"; food "6" "Hamburger"];
     pizzas := ok [food "5" "Margherita"];
     desserts := Fulfilled {| status := 200; data := BodyOther "<html>Bad gateway</html>" |};
     drinks := failed; bbqs := failed; sandwiches := failed; steaks := failed |}.

(** A world in which one image loads after 100 ms, one after 5 s, one
    fails after 10 ms, and every other url never answers. *)
Definition world (url : string) : ImageValidation.ImageOutcome :=
  if bool_decide (url = "https://img.example/1") then ImageValidation.Loads 100
  else if bool_decide (url = "https://img.example/2") then ImageValidation.Loads 5000
  else if bool_decide (url = "https://img.example/3") then ImageValidation.Errors 10
  else ImageValidation.Hangs.

(** A catalog of 100 dishes, numbered from 0.  In [world60] the images of
    the dishes 0 to 59 load after 100 ms and every other image fails. *)
Definition dish (i : nat) : FoodItem := Api.stamp 0 (food (pretty i) ("Dish " +:+ pretty i)).

Definition catalog100 : list FoodItem := dish <$> seq 0 100.

Definition world60 (url : string) : ImageValidation.ImageOutcome :=
  if bool_decide (url ∈ img <$> take 60 catalog100)
  then ImageValidation.Loads 100
  else ImageValidation.Errors 10.

(** The state of the hook when the fetched catalog arrives for the first
    time: nothing validated, nothing cached. *)
Definition fresh : MenuData.State :=
  {| MenuData.validatedFoods := []; MenuData.isValidating := false;
     MenuData.validationProgress := 0; MenuData.hasValidated := false |}.

End Examples.

(** ** [services/api.ts]: the filters and the lookup of a category *)
Module ApiFilters.
Import Api.

(** [filterFoodsByPrice(foods, minPrice, maxPrice)]; [maxPrice] is [None]
    for [Infinity], the default. *)
Definition filterFoodsByPrice (foods : list FoodItem) (minPrice : Q) (maxPrice : option Q)
  : list FoodItem :=
  List.filter
    (λ food, Qle_bool minPrice (price food) &&
             match maxPrice with
             | Some m => Qle_bool (price food) m
             | None => true
             end)
    foods.

(** [filterFoodsByRating(foods, minRating)] *)
Definition filterFoodsByRating (foods : list FoodItem) (minRating : Q) : list FoodItem :=
  List.filter (λ food, Qle_bool minRating (rate food)) foods.

(** The smaller of two upper bounds, [None] being [Infinity]. *)
Definition lowerCap (b d : option Q) : option Q :=
  match b, d with
  | Some x, Some y => Some (Qmin x y)
  | Some x, None => Some x
  | None, _ => d
  end.

Definition upper_ascii (c : ascii) : ascii :=
  let n := nat_of_ascii c in
  if (97 <=? n) && (n <=? 122) then ascii_of_nat (n - 32) else c.

Fixpoint toUpperCase (s : string) : string :=
  match s with
  | EmptyString => EmptyString
  | String c s' => String (upper_ascii c) (toUpperCase s')
  end.

(** [API_CONFIG.ENDPOINTS] of [utils/constants.ts]. *)
Definition ENDPOINTS : list (string * string) :=
  [("BEST_FOODS", "/best-foods"); ("BURGERS", "/burgers"); ("PIZZAS", "/pizzas");
   ("DESSERTS", "/desserts"); ("DRINKS", "/drinks"); ("ICE_CREAM", "/ice-cream");
   ("BBQS", "/bbqs"); ("SANDWICHES", "/sandwiches"); ("STEAKS", "/steaks")].

(** [API_CONFIG.ENDPOINTS[key]] *)
Definition endpointOf (key : string) : option string :=
  (list_to_map ENDPOINTS : gmap string string) !! key.

(** What [getFoodsByCategory] throws: its own [Error], or the rejection of
    the request, logged and thrown again. *)
Inductive CategoryError :=
| InvalidCategory (category : string)
| RequestFailed (reason : string).

(** [getFoodsByCategory(category)], against a network that tells how the
    request to each path settles. *)
Definition getFoodsByCategory (get : string → Settled) (category : string)
  : CategoryError + Body :=
  let key := toUpperCase category in
  match endpointOf key with
  | Some endpoint =>
      if truthy endpoint then
        match get endpoint with
        | Fulfilled response => inr (data response)
        | Rejected reason => inl (RequestFailed reason)
        end
      else inl (InvalidCategory category)
  | None => inl (InvalidCategory category)
  end.

End ApiFilters.

(** ** [hooks/useMenuData.ts]: search, pagination and the best foods *)
Module MenuHooks.
Import Api ImageValidation MenuData.

(** [useMenuSearch]: the value [searchResults] settles to, once the 300 ms
    of the debounce are over. *)
Definition useMenuSearch (searchQuery : string) (foods : list FoodItem) : list FoodItem :=
  if negb (truthy (trim searchQuery)) then []
  else searchFoods searchQuery (Some foods).

Definition hasResults (searchResults : list FoodItem) : bool :=
  0 <? length searchResults.

(** The state of [useMenuPagination]. *)
Record Paging := mkPaging { currentPage : nat; itemsPerPageState : nat }.

(** [Math.ceil(foods.length / itemsPerPageState)], for a positive number of
    items per page. *)
Definition totalPages (len : nat) (p : Paging) : nat :=
  (len + itemsPerPageState p - 1) / itemsPerPageState p.

Definition startIndex (p : Paging) : nat := (currentPage p - 1) * itemsPerPageState p.
Definition endIndex (p : Paging) : nat := startIndex p + itemsPerPageState p.

Definition currentFoods (foods : list FoodItem) (p : Paging) : list FoodItem :=
  slice (startIndex p) (endIndex p) foods.

(** [setCurrentPage(Math.max(1, Math.min(page, totalPages)))] *)
Definition goToPage (len : nat) (page : Z) (p : Paging) : Paging :=
  {| currentPage := Z.to_nat (Z.max 1 (Z.min page (Z.of_nat (totalPages len p))));
     itemsPerPageState := itemsPerPageState p |}.

Definition goToNextPage (len : nat) (p : Paging) : Paging :=
  goToPage len (Z.of_nat (currentPage p) + 1) p.

Definition goToPreviousPage (len : nat) (p : Paging) : Paging :=
  goToPage len (Z.of_nat (currentPage p) - 1) p.

Definition goToFirstPage (len : nat) (p : Paging) : Paging := goToPage len 1 p.

Definition goToLastPage (len : nat) (p : Paging) : Paging :=
  goToPage len (Z.of_nat (totalPages len p)) p.

(** The fields of the object [useMenuPagination] returns. *)
Definition hasNextPage (len : nat) (p : Paging) : bool := currentPage p <? totalPages len p.
Definition hasPreviousPage (p : Paging) : bool := 1 <? currentPage p.
Definition shownStartIndex (p : Paging) : nat := startIndex p + 1.
Definition shownEndIndex (len : nat) (p : Paging) : nat := Nat.min (endIndex p) len.

(** The state of [useBestFoods]. *)
Record BestState := mkBestState {
  validatedBestFoods : list FoodItem;
  bestIsValidating : bool;
  bestHasValidated : bool
}.

(** The two lazy initialisers of [useBestFoods], run in order at [now]. *)
Definition initBestState (now : Z) (ls : Storage) : BestState * Storage :=
  let (cached, ls') := initValidatedFoods BEST_FOODS_KEY now ls in
  ({| validatedBestFoods := cached; bestIsValidating := false;
      bestHasValidated := initHasValidated BEST_FOODS_KEY now ls' |}, ls').

(** The validation [useEffect] of [useBestFoods]. *)
Definition bestValidationEffect (world : string → ImageOutcome) (st : BestState)
    (resultData : option (list FoodItem)) (now : Z) : option (list Effect) :=
  match resultData with
  | Some data =>
      if (0 <? length data) && negb (bestHasValidated st)
      then
        tr ← validateBestFoodsImages world data now;
        Some (SetIsValidating true :: SetHasValidated true :: tr)
      else Some []
  | None => Some []
  end.

(** How an effect changes the state of [useBestFoods] and [localStorage]. *)
Definition applyBestEffect (s : BestState * Storage) (e : Effect) : BestState * Storage :=
  let (st, ls) := s in
  match e with
  | SetValidatedBestFoods fs =>
      ({| validatedBestFoods := fs; bestIsValidating := bestIsValidating st;
          bestHasValidated := bestHasValidated st |}, ls)
  | SetIsValidating b =>
      ({| validatedBestFoods := validatedBestFoods st; bestIsValidating := b;
          bestHasValidated := bestHasValidated st |}, ls)
  | SetHasValidated b =>
      ({| validatedBestFoods := validatedBestFoods st;
          bestIsValidating := bestIsValidating st; bestHasValidated := b |}, ls)
  | SetItem key c => (st, <[key := Json c]> ls)
  | RemoveItem key => (st, delete key ls)
  | SetValidationProgress _ | SetValidatedFoods _ | CheckImageUrl _ | YieldToMainThread =>
      (st, ls)
  end.

Definition applyBestEffects (s : BestState * Storage) (tr : list Effect)
  : BestState * Storage :=
  foldl applyBestEffect s tr.

(** [data] and [isLoading] of the object [useBestFoods] returns. *)
Definition bestData (st : BestState) (resultData : option (list FoodItem)) : list FoodItem :=
  if 0 <? length (validatedBestFoods st) then validatedBestFoods st
  else default [] resultData.

Definition bestIsLoading (st : BestState) (resultIsLoading : bool) : bool :=
  resultIsLoading || bestIsValidating st.

(** The two lazy initialisers of [useAllFoodsWithValidation], run in order
    at [now], and the [enabled] option of its query. *)
Definition initState (now : Z) (ls : Storage) : State * Storage :=
  let (cached, ls') := initValidatedFoods VALIDATION_KEY now ls in
  ({| validatedFoods := cached; isValidating := false; validationProgress := 0;
      hasValidated := initHasValidated VALIDATION_KEY now ls' |}, ls').

Definition queryEnabled (st : State) : bool := length (validatedFoods st) =? 0.

(** Readings of a trace. *)
Definition yields (tr : list Effect) : nat :=
  length (List.filter (λ e, match e with YieldToMainThread => true | _ => false end) tr).

(** The orders in which the calls of two asynchronous functions that run at
    the same time can reach the state: each function keeps its own order. *)
Inductive Interleaving {A} : list A → list A → list A → Prop :=
| interleaving_nil : Interleaving [] [] []
| interleaving_left x a b m : Interleaving a b m → Interleaving (x :: a) b (x :: m)
| interleaving_right x a b m : Interleaving a b m → Interleaving a (x :: b) (x :: m).

End MenuHooks.

(** ** [pages/Menu.tsx]: the list shown and the cart *)
Module MenuPage.
Import Api MenuData.

(** [selectedCategory.slice(0, -1)]: the string without its last character. *)
Fixpoint dropLast (s : string) : string :=
  match s with
  | EmptyString => EmptyString
  | String c s' => match s' with EmptyString => EmptyString | _ => String c (dropLast s') end
  end.

(** The callback of [allFoods.filter]. *)
Definition shown (searchQuery selectedCategory : string) (food : FoodItem) : bool :=
  let matchesSearch :=
    includes (toLowerCase (name food)) (toLowerCase searchQuery) ||
    includes (toLowerCase (dsc food)) (toLowerCase searchQuery) in
  if bool_decide (selectedCategory = "all") then matchesSearch
  else
    let categoryMatch :=
      includes (toLowerCase (name food)) (dropLast selectedCategory) ||
      includes (toLowerCase (dsc food)) (dropLast selectedCategory) in
    matchesSearch && categoryMatch.

Definition filteredFoods (allFoods : list FoodItem) (searchQuery selectedCategory : string)
  : list FoodItem :=
  List.filter (shown searchQuery selectedCategory) allFoods.

(** [filteredFoods.slice(0, displayCount)] and what goes with it. *)
Definition displayedFoods (filtered : list FoodItem) (displayCount : nat) : list FoodItem :=
  slice 0 displayCount filtered.

Definition hasMoreFoods (filtered : list FoodItem) (displayCount : nat) : bool :=
  displayCount <? length filtered.

Definition handleShowMore (displayCount : nat) : nat := displayCount + 20.

(** [CartItem]: a food item with its quantity. *)
Record CartItem := mkCartItem { food : FoodItem; quantity : Z }.

(** [item.id === foodId] *)
Definition hasId (foodId : string) (item : CartItem) : bool :=
  bool_decide (id (food item) = foodId).

(** The updater [addToCart] passes to [setCart]. *)
Definition addToCart (f : FoodItem) (prevCart : list CartItem) : list CartItem :=
  match List.find (hasId (id f)) prevCart with
  | Some existingItem =>
      map (λ item, if hasId (id f) item
                   then {| food := food item; quantity := quantity item + 1 |}
                   else item) prevCart
  | None => prevCart ++ [{| food := f; quantity := 1 |}]
  end.

Definition removeFromCart (foodId : string) (prevCart : list CartItem) : list CartItem :=
  List.filter (λ item, negb (hasId foodId item)) prevCart.

Definition updateQuantity (foodId : string) (newQuantity : Z) (prevCart : list CartItem)
  : list CartItem :=
  if (newQuantity <=? 0)%Z then removeFromCart foodId prevCart
  else map (λ item, if hasId foodId item
                    then {| food := food item; quantity := newQuantity |}
                    else item) prevCart.

Definition clearCart (prevCart : list CartItem) : list CartItem := [].

Definition getCartItemCount (cart : list CartItem) : Z :=
  foldl (λ count item, (count + quantity item)%Z) 0%Z cart.

(** What every cart the page can reach satisfies: no raw id twice, and
    every quantity at least one. *)
Definition CartInv (cart : list CartItem) : Prop :=
  NoDup (id ∘ food <$> cart) ∧ Forall (λ item, (1 ≤ quantity item)%Z) cart.

(** The quantity the cart holds of the item with a raw id, 0 when it holds
    none. *)
Definition quantityOf (foodId : string) (cart : list CartItem) : Z :=
  from_option quantity 0%Z (List.find (hasId foodId) cart).

(** [Math.max(0, timestamp + 24h - Date.now())], the time the cache record
    has left. *)
Definition cacheExpiration (timestamp now : Z) : Z :=
  Z.max 0 (timestamp + DAY_MS - now).

End MenuPage.

(** ** More concrete inputs *)
Module MoreExamples.
Import Api MenuData.

(** Burgers deliver two items, one of them twice; pizzas deliver an empty
    body; desserts fail; drinks deliver one item. *)
Definition mixed : Results :=
  {| burgers := Examples.ok [Examples.food "5" "Cheeseburger"; Examples.food "6" "Hamburger";
                             Examples.food "5" "Cheeseburger again"];
     pizzas := Fulfilled (mkResponse 204 BodyFalsy);
     desserts := Examples.failed;
     drinks := Examples.ok [Examples.food "5" "Lemonade"];
     bbqs := Examples.failed; sandwiches := Examples.failed; steaks := Examples.failed |}.

(** A priced dish. *)
Definition priced (i : string) (p r : Q) : FoodItem :=
  {| id := i; img := "https://img.example/" +:+ i; name := "Dish " +:+ i; dsc := "";
     price := p; rate := r; country := "US"; category := None; uniqueId := None |}.

Definition constrained : Connection := {| saveData := false; effectiveType := "slow-2g" |}.

End MoreExamples.

(** * Properties *)

(** ** The aggregator *)
Ltac exc_simpl := simpl in *; unfold Api.ret, Api.throw, Api.bind in *; simplify_eq/=.

Section ApiFacts.
Import Api.

Lemma string_app_nil_l (s : string) : "" +:+ s = s.
Proof. reflexivity. Qed.

Lemma string_app_cons (c : ascii) (s t : string) :
  String c s +:+ t = String c (s +:+ t).
Proof. reflexivity. Qed.

Lemma hyphen_free_not_app (c b t : string) :
  hyphen_free c = true → c ≠ b +:+ "-" +:+ t.
Proof.
  revert c. induction b as [|x b IH]; intros c Hc Heq; subst c.
  - rewrite string_app_nil_l, string_app_cons in Hc. simpl in Hc. discriminate.
  - rewrite string_app_cons in Hc. simpl in Hc.
    apply andb_true_iff in Hc as [_ Hc]. by eapply IH.
Qed.

(** The uniqueId determines both the raw id and the category. *)
Lemma uniqueId_inj (a b c1 c2 : string) :
  hyphen_free c1 = true → hyphen_free c2 = true →
  a +:+ "-" +:+ c1 = b +:+ "-" +:+ c2 → a = b ∧ c1 = c2.
Proof.
  intros H1 H2. revert b.
  induction a as [|x a IH]; intros [|y b] Heq;
    rewrite ?string_app_nil_l, ?string_app_cons in Heq.
  - rewrite !string_app_nil_l in Heq. by simplify_eq.
  - rewrite string_app_nil_l in Heq. injection Heq as _ Heq.
    by apply hyphen_free_not_app in Heq.
  - rewrite string_app_nil_l in Heq. injection Heq as _ Heq.
    symmetry in Heq. by apply hyphen_free_not_app in Heq.
  - injection Heq as -> Heq. destruct (IH _ Heq) as [-> ->]. done.
Qed.

Lemma category_at_hyphen_free (index : nat) : hyphen_free (category_at index) = true.
Proof. do 7 (destruct index as [|index]; [reflexivity|]). reflexivity. Qed.

Lemma stamp_uniqueId_truthy (index : nat) (item : FoodItem) (u : string) :
  uniqueId (stamp index item) = Some u → truthy u = true.
Proof.
  simpl. intros [= <-]. destruct (id item); [|done].
  by rewrite string_app_nil_l, string_app_cons.
Qed.

(** *** The invariant of the aggregation loop *)

Lemma push_unique_inv (acc : Acc) (item : FoodItem) :
  AccInv acc → AccInv (push_unique acc item).
Proof.
  intros [Hnd Hseen]. unfold push_unique.
  destruct (uniqueId item) as [u|] eqn:Hu; [|by split].
  destruct (truthy u); simpl; [|by split].
  case_bool_decide as Hfresh; simpl; [|by split].
  split; simpl; rewrite fmap_app; simpl; rewrite Hu.
  - apply NoDup_app. split_and!; [done| |apply NoDup_singleton].
    intros o Ho ->%list_elem_of_singleton. by apply Hfresh, Hseen.
  - intros u'. rewrite elem_of_union, elem_of_singleton, elem_of_app,
      list_elem_of_singleton, Hseen.
    split; (intros [?|?]; [|]); simplify_eq; auto.
Qed.

Lemma foldl_push_unique_inv (items : list FoodItem) (acc : Acc) :
  AccInv acc → AccInv (foldl push_unique acc items).
Proof.
  revert acc. induction items as [|x items IH]; intros acc Hacc; [done|].
  simpl. by apply IH, push_unique_inv.
Qed.

Lemma push_unique_seen_mono (acc : Acc) (item : FoodItem) :
  seenIds acc ⊆ seenIds (push_unique acc item).
Proof.
  unfold push_unique. destruct (uniqueId item); [|done].
  destruct (_ && _); simpl; set_solver.
Qed.

Lemma foldl_push_unique_seen_mono (items : list FoodItem) (acc : Acc) :
  seenIds acc ⊆ seenIds (foldl push_unique acc items).
Proof.
  revert acc. induction items as [|x items IH]; intros acc; [done|].
  simpl. etrans; [apply (push_unique_seen_mono acc x)|apply IH].
Qed.

Lemma push_unique_seen (acc : Acc) (item : FoodItem) (u : string) :
  uniqueId item = Some u → truthy u = true → u ∈ seenIds (push_unique acc item).
Proof.
  intros Hu Ht. unfold push_unique. rewrite Hu, Ht. simpl.
  case_bool_decide as Hfresh; simpl; [set_solver|done].
Qed.

Lemma foldl_push_unique_seen (items : list FoodItem) (acc : Acc) (x : FoodItem) (u : string) :
  x ∈ items → uniqueId x = Some u → truthy u = true →
  u ∈ seenIds (foldl push_unique acc items).
Proof.
  revert acc. induction items as [|y items IH]; intros acc Hx Hu Ht.
  - by apply elem_of_nil in Hx.
  - simpl. apply elem_of_cons in Hx as [->|Hx]; [|by apply IH].
    apply foldl_push_unique_seen_mono. by apply push_unique_seen.
Qed.

Lemma push_unique_Forall (P : FoodItem → Prop) (acc : Acc) (item : FoodItem) :
  Forall P (allFoods acc) → P item → Forall P (allFoods (push_unique acc item)).
Proof.
  intros Hacc Hitem. unfold push_unique. destruct (uniqueId item); [|done].
  destruct (_ && _); simpl; [|done]. apply Forall_app. by split; [|apply Forall_singleton].
Qed.

Lemma foldl_push_unique_Forall (P : FoodItem → Prop) (items : list FoodItem) (acc : Acc) :
  Forall P (allFoods acc) → Forall P items →
  Forall P (allFoods (foldl push_unique acc items)).
Proof.
  revert acc. induction items as [|x items IH]; intros acc Hacc Hitems; [done|].
  apply Forall_cons in Hitems as [Hx Hitems]. simpl.
  by apply IH; [apply push_unique_Forall|].
Qed.

Lemma stamp_stamped (index : nat) (item : FoodItem) :
  index < length categories → stamped (stamp index item).
Proof. intros Hi. by exists index. Qed.

Lemma forEach_from_inv (rs : list Settled) (index : nat) (acc acc' : Acc) :
  forEach_from index rs acc = inr acc' → AccInv acc → AccInv acc'.
Proof.
  revert index acc. induction rs as [|r rs IH]; intros index acc Hrun Hacc.
  - by exc_simpl.
  - simpl in Hrun. unfold bind in Hrun at 1.
    destruct (on_result acc index r) as [e|acc1] eqn:Hr; [done|].
    simpl in Hrun. eapply IH; [done|].
    destruct r as [[? []]|]; exc_simpl; [done| |done].
    by apply foldl_push_unique_inv.
Qed.

Lemma forEach_from_stamped (rs : list Settled) (index : nat) (acc acc' : Acc) :
  index + length rs ≤ length categories →
  forEach_from index rs acc = inr acc' →
  Forall stamped (allFoods acc) → Forall stamped (allFoods acc').
Proof.
  revert index acc. induction rs as [|r rs IH]; intros index acc Hlen Hrun Hacc.
  - by exc_simpl.
  - simpl in Hrun. unfold bind in Hrun at 1.
    destruct (on_result acc index r) as [e|acc1] eqn:Hr; [done|].
    simpl in Hrun. eapply (IH (S index)); [simpl in *; lia|done|].
    destruct r as [[? []]|]; exc_simpl; [done| |done].
    apply foldl_push_unique_Forall; [done|].
    apply Forall_fmap, Forall_true. intros x. apply stamp_stamped. simpl in *; lia.
Qed.

Lemma forEach_from_seen_mono (rs : list Settled) (index : nat) (acc acc' : Acc) :
  forEach_from index rs acc = inr acc' → seenIds acc ⊆ seenIds acc'.
Proof.
  revert index acc. induction rs as [|r rs IH]; intros index acc Hrun.
  - by exc_simpl.
  - simpl in Hrun. unfold bind in Hrun at 1.
    destruct (on_result acc index r) as [e|acc1] eqn:Hr; [done|].
    simpl in Hrun. etrans; [|by eapply IH].
    destruct r as [[? []]|]; exc_simpl; [done| |done].
    apply foldl_push_unique_seen_mono.
Qed.

Lemma forEach_from_seen (rs : list Settled) (index : nat) (acc acc' : Acc)
    (i : nat) (value : Response) (items : list FoodItem) (x : FoodItem) :
  forEach_from index rs acc = inr acc' →
  rs !! i = Some (Fulfilled value) → data value = BodyArray items → x ∈ items →
  id x +:+ "-" +:+ category_at (index + i) ∈ seenIds acc'.
Proof.
  revert index acc i. induction rs as [|r rs IH]; intros index acc i Hrun Hi Hd Hx; [done|].
  simpl in Hrun. unfold bind in Hrun at 1.
  destruct (on_result acc index r) as [e|acc1] eqn:Hr; [done|].
  simpl in Hrun. destruct i as [|i]; simpl in Hi.
  - exc_simpl. rewrite Hd in Hr. exc_simpl. rewrite Nat.add_0_r.
    eapply forEach_from_seen_mono; [done|].
    eapply (foldl_push_unique_seen _ _ (stamp index x)).
    + by apply list_elem_of_fmap_2.
    + done.
    + by eapply stamp_uniqueId_truthy.
  - replace (index + S i) with (S index + i) by lia. by eapply IH.
Qed.

(** The run throws exactly when some body is not an array. *)
Lemma forEach_from_well_formed (rs : list Settled) (index : nat) (acc : Acc) :
  forallb well_formed rs = true ↔ ∃ acc', forEach_from index rs acc = inr acc'.
Proof.
  revert index acc. induction rs as [|r rs IH]; intros index acc; simpl.
  - split; [by eexists|done].
  - rewrite andb_true_iff. split.
    + intros [Hr Hrs].
      destruct r as [[? []]|]; simpl in *; unfold bind, ret, throw; try done;
        by apply (proj1 (IH _ _)).
    + intros [acc' Hrun].
      destruct r as [[? []]|]; simpl in *; unfold bind, ret, throw in Hrun; try done;
        (split; [done|]); eapply IH; eauto.
Qed.

End ApiFacts.

(** ** The de-duplication of the hook's output *)
Section DedupFacts.
Import MenuData.

Lemma dedupStep_inv (acc : list FoodItem * gset string) (f : FoodItem) :
  DedupInv acc → DedupInv (dedupStep acc f).
Proof.
  destruct acc as [out seen]. intros [Hnd Hseen]. unfold dedupStep.
  case_bool_decide as Hfresh; [|by split].
  split; simpl in *; rewrite fmap_app; simpl.
  - apply NoDup_app. split_and!; [done| |apply NoDup_singleton].
    intros k Hk ->%list_elem_of_singleton. by apply Hfresh, Hseen.
  - intros k. rewrite elem_of_union, elem_of_singleton, elem_of_app,
      list_elem_of_singleton, Hseen.
    split; (intros [?|?]; [|]); simplify_eq; auto.
Qed.

Lemma foldl_dedupStep_inv (l : list FoodItem) (acc : list FoodItem * gset string) :
  DedupInv acc → DedupInv (foldl dedupStep acc l).
Proof.
  revert acc. induction l as [|f l IH]; intros acc Hacc; [done|].
  simpl. by apply IH, dedupStep_inv.
Qed.

Lemma deduped_NoDup (finalData : list FoodItem) :
  NoDup (dedupKey <$> deduped finalData).
Proof.
  apply (foldl_dedupStep_inv finalData ([], ∅)).
  split; simpl; [apply NoDup_nil_2|]. intros k. set_solver.
Qed.

(** The loop only ever keeps items of its input, in their order. *)
Lemma foldl_dedupStep_sublist (l : list FoodItem) (out : list FoodItem) (seen : gset string) :
  ∃ kept, (foldl dedupStep (out, seen) l).1 = out ++ kept ∧ kept `sublist_of` l.
Proof.
  revert out seen. induction l as [|f l IH]; intros out seen; simpl.
  - exists []. by rewrite app_nil_r.
  - case_bool_decide.
    + destruct (IH (out ++ [f]) ({[dedupKey f]} ∪ seen)) as (kept & -> & Hsub).
      exists (f :: kept). rewrite <-app_assoc. split; [done|by apply sublist_skip].
    + destruct (IH out seen) as (kept & -> & Hsub).
      exists kept. split; [done|by apply sublist_cons].
Qed.

Lemma deduped_sublist (finalData : list FoodItem) : deduped finalData `sublist_of` finalData.
Proof.
  destruct (foldl_dedupStep_sublist finalData [] ∅) as (kept & Heq & Hsub).
  unfold deduped. by rewrite Heq.
Qed.

(** A list without repeated keys passes through unchanged. *)
Lemma foldl_dedupStep_id (l : list FoodItem) (out : list FoodItem) (seen : gset string) :
  NoDup (dedupKey <$> l) → (∀ f, f ∈ l → dedupKey f ∉ seen) →
  (foldl dedupStep (out, seen) l).1 = out ++ l.
Proof.
  revert out seen. induction l as [|f l IH]; intros out seen Hnd Hfresh; simpl.
  - by rewrite app_nil_r.
  - rewrite fmap_cons in Hnd. apply NoDup_cons in Hnd as [Hf Hnd].
    rewrite bool_decide_eq_true_2 by (apply Hfresh; left).
    rewrite IH, <-app_assoc; [done|done|].
    intros g Hg. rewrite elem_of_union, elem_of_singleton. intros [Heq|Hin].
    + apply Hf. rewrite <-Heq. by apply list_elem_of_fmap_2.
    + by apply (Hfresh g); [right|].
Qed.

Lemma deduped_id (finalData : list FoodItem) :
  NoDup (dedupKey <$> finalData) → deduped finalData = finalData.
Proof.
  intros Hnd. unfold deduped. rewrite foldl_dedupStep_id; [done|done|set_solver].
Qed.

Lemma dedupKey_truthy (f : FoodItem) :
  truthy_opt (uniqueId f) = true → uniqueId f = Some (dedupKey f).
Proof.
  unfold dedupKey. destruct (uniqueId f) as [u|]; simpl; [|done]. by intros ->.
Qed.

Lemma uniqueId_fmap_truthy (l : list FoodItem) :
  Forall (λ f, truthy_opt (uniqueId f) = true) l →
  uniqueId <$> l = Some <$> (dedupKey <$> l).
Proof.
  induction 1 as [|f l Hf _ IH]; [done|].
  rewrite !fmap_cons, IH. f_equal. by apply dedupKey_truthy.
Qed.

Lemma NoDup_uniqueId_dedupKey (l : list FoodItem) :
  Forall (λ f, truthy_opt (uniqueId f) = true) l →
  NoDup (uniqueId <$> l) ↔ NoDup (dedupKey <$> l).
Proof.
  intros Hl. rewrite (uniqueId_fmap_truthy l Hl).
  split; [apply NoDup_fmap_1|apply NoDup_fmap_2, _].
Qed.

End DedupFacts.

(** ** No two items of the catalog share a uniqueId *)
Section UniqueIds.
Import Api.

Lemma category_at_inj (i j : nat) :
  i < length categories → j < length categories →
  category_at i = category_at j → i = j.
Proof.
  simpl. intros Hi Hj.
  do 7 (destruct i as [|i]; [do 7 (destruct j as [|j]; [by intros [=]|]); lia|]). lia.
Qed.

Lemma stamped_truthy (f : FoodItem) : stamped f → truthy_opt (uniqueId f) = true.
Proof.
  intros (index & _ & _ & ->). simpl. destruct (id f); [|done].
  by rewrite string_app_nil_l, string_app_cons.
Qed.

(** What a run that does not throw leaves in the accumulators. *)
Lemma aggregate_run (r : Results) (foods : list FoodItem) :
  aggregate r = inr foods →
  ∃ acc, forEach_from 0 (results_list r) {| allFoods := []; seenIds := ∅ |} = inr acc ∧
         allFoods acc = foods ∧ AccInv acc ∧ Forall stamped foods.
Proof.
  unfold aggregate, bind at 1. intros Hrun.
  destruct (forEach_from 0 _ _) as [e|acc] eqn:Hloop; [done|].
  injection Hrun as <-. exists acc. split_and!; [done|done| |].
  - eapply forEach_from_inv; [done|]. split; simpl; [apply NoDup_nil_2|set_solver].
  - eapply forEach_from_stamped; [|done|by simpl]. done.
Qed.

Lemma getAllFoods_NoDup (r : Results) : NoDup (uniqueId <$> getAllFoods r).
Proof.
  unfold getAllFoods. destruct (aggregate r) as [e|foods] eqn:Hrun; [apply NoDup_nil_2|].
  apply aggregate_run in Hrun as (acc & _ & <- & [Hnd _] & _). done.
Qed.

Lemma getAllFoods_stamped (r : Results) : Forall stamped (getAllFoods r).
Proof.
  unfold getAllFoods. destruct (aggregate r) as [e|foods] eqn:Hrun; [done|].
  by apply aggregate_run in Hrun as (acc & _ & _ & _ & ?).
Qed.

Lemma aggregate_well_formed (r : Results) :
  forallb well_formed (results_list r) = true →
  ∃ foods, aggregate r = inr foods ∧ getAllFoods r = foods.
Proof.
  intros Hwf.
  apply (forEach_from_well_formed _ 0 {| allFoods := []; seenIds := ∅ |}) in Hwf
    as [acc Hacc].
  exists (allFoods acc). unfold getAllFoods, aggregate. by rewrite Hacc.
Qed.

(** Every item of a response that arrived as an array is represented in
    the output under its own uniqueId. *)
Lemma getAllFoods_retains (r : Results) (i : nat) (value : Response)
    (items : list FoodItem) (x : FoodItem) :
  forallb well_formed (results_list r) = true →
  results_list r !! i = Some (Fulfilled value) →
  Api.data value = BodyArray items → x ∈ items →
  ∃ f, f ∈ getAllFoods r ∧ id f = id x ∧
       category f = Some (category_at i) ∧
       uniqueId f = Some (id x +:+ "-" +:+ category_at i).
Proof.
  intros Hwf Hi Hd Hx.
  destruct (aggregate_well_formed r Hwf) as (foods & Hrun & ->).
  destruct (aggregate_run r foods Hrun) as (acc & Hloop & <- & [_ Hseen] & Hst).
  pose proof (forEach_from_seen _ _ _ _ _ _ _ _ Hloop Hi Hd Hx) as Hin.
  simpl in Hin. apply Hseen, list_elem_of_fmap in Hin as (f & Hu & Hf).
  exists f. split; [done|].
  rewrite Forall_forall in Hst. destruct (Hst f Hf) as (j & Hj & Hc & Hu').
  rewrite Hu' in Hu. injection Hu as Hu.
  apply uniqueId_inj in Hu as [Hid Hcat]; auto using category_at_hyphen_free.
  by rewrite Hc, Hu', Hid, Hcat.
Qed.

(** X26: the aggregated catalog and the list the validated-catalog hook
    returns never contain two items with the same uniqueId.  Every item
    [getAllFoods] returns carries its category and the uniqueId
    [id + "-" + category]; when every fulfilled body is an array or falsy,
    two responses that reuse a raw id are both represented, under different
    uniqueIds; the hook's [data] has pairwise different keys
    [uniqueId || id], hence pairwise different uniqueIds wherever the
    uniqueId is set, as it is on every aggregated item. *)
Theorem getAllFoods_uniqueId_distinct (r : Results) :
  NoDup (uniqueId <$> getAllFoods r) ∧
  Forall stamped (getAllFoods r) ∧
  (∀ i j vi vj xs ys x y,
     forallb well_formed (results_list r) = true →
     i ≠ j →
     results_list r !! i = Some (Fulfilled vi) → Api.data vi = BodyArray xs → x ∈ xs →
     results_list r !! j = Some (Fulfilled vj) → Api.data vj = BodyArray ys → y ∈ ys →
     id x = id y →
     ∃ fx fy, fx ∈ getAllFoods r ∧ fy ∈ getAllFoods r ∧
       id fx = id x ∧ category fx = Some (category_at i) ∧
       uniqueId fx = Some (id x +:+ "-" +:+ category_at i) ∧
       id fy = id y ∧ category fy = Some (category_at j) ∧
       uniqueId fy = Some (id y +:+ "-" +:+ category_at j) ∧
       uniqueId fx ≠ uniqueId fy) ∧
  (∀ st resultData,
     let d := MenuData.data (MenuData.useAllFoodsWithValidation st resultData) in
     NoDup (MenuData.dedupKey <$> d) ∧
     (∀ k l f g, k ≠ l → d !! k = Some f → d !! l = Some g →
        truthy_opt (uniqueId f) = true → uniqueId f ≠ uniqueId g) ∧
     (Forall (λ f, truthy_opt (uniqueId f) = true) d → NoDup (uniqueId <$> d))) ∧
  (∀ st,
     MenuData.validatedFoods st = [] ∨ MenuData.validatedFoods st ≡ₚ getAllFoods r →
     let d := MenuData.data (MenuData.useAllFoodsWithValidation st (Some (getAllFoods r))) in
     NoDup (uniqueId <$> d) ∧ d ≡ₚ getAllFoods r).
Proof.
  split_and!.
  - apply getAllFoods_NoDup.
  - apply getAllFoods_stamped.
  - intros i j vi vj xs ys x y Hwf Hij Hi Hdi Hx Hj Hdj Hy Hid.
    destruct (getAllFoods_retains r i vi xs x Hwf Hi Hdi Hx) as (fx & ? & ? & ? & Hux).
    destruct (getAllFoods_retains r j vj ys y Hwf Hj Hdj Hy) as (fy & ? & ? & ? & Huy).
    exists fx, fy. split_and!; try done.
    rewrite Hux, Huy. intros [= Heq].
    apply uniqueId_inj in Heq as [_ Heq]; auto using category_at_hyphen_free.
    apply category_at_inj in Heq; [done| |].
    + apply lookup_lt_Some in Hi. by simpl in *.
    + apply lookup_lt_Some in Hj. by simpl in *.
  - intros st resultData d. subst d. simpl.
    pose proof (deduped_NoDup
      (if 0 <? length (MenuData.validatedFoods st)
       then MenuData.validatedFoods st else default [] resultData)) as Hnd.
    split_and!; [done| |].
    + intros k l f g Hkl Hk Hl Hf Heq.
      assert (MenuData.dedupKey f = MenuData.dedupKey g) as Hkey.
      { apply dedupKey_truthy in Hf as Hf'. rewrite Heq in Hf.
        apply dedupKey_truthy in Hf. congruence. }
      apply Hkl. eapply NoDup_lookup; [exact Hnd| |].
      * by rewrite list_lookup_fmap, Hk.
      * by rewrite list_lookup_fmap, Hl, Hkey.
    + intros Hall. by apply NoDup_uniqueId_dedupKey.
  - intros st Hst d. subst d. simpl.
    assert (∀ l, l ≡ₚ getAllFoods r →
              NoDup (uniqueId <$> MenuData.deduped l) ∧ MenuData.deduped l ≡ₚ getAllFoods r)
      as Hperm.
    { intros l Hl.
      assert (Forall (λ f, truthy_opt (uniqueId f) = true) l) as Hall.
      { rewrite Hl. eapply Forall_impl; [apply getAllFoods_stamped|].
        apply stamped_truthy. }
      assert (NoDup (uniqueId <$> l)) as Hnd.
      { rewrite Hl. apply getAllFoods_NoDup. }
      rewrite deduped_id; [done|]. by apply NoDup_uniqueId_dedupKey. }
    destruct Hst as [->|Hst]; simpl.
    + by apply Hperm.
    + destruct (MenuData.validatedFoods st) as [|f l] eqn:Hvf; simpl.
      * by apply Hperm.
      * by apply Hperm.
Qed.

(** Burgers and pizzas both carry the raw id 5: both items are kept, as
    5-burgers and 5-pizzas. *)
Lemma getAllFoods_uniqueId_distinct_witness :
  ∃ fx fy, fx ∈ getAllFoods Examples.shared_id ∧ fy ∈ getAllFoods Examples.shared_id ∧
    uniqueId fx = Some "5-burgers" ∧ uniqueId fy = Some "5-pizzas".
Proof.
  destruct (getAllFoods_uniqueId_distinct Examples.shared_id) as (_ & _ & H & _).
  destruct (H 0 1 _ _ _ _ (Examples.food "5" "Cheeseburger") (Examples.food "5" "Margherita")
              eq_refl ltac:(lia) eq_refl eq_refl ltac:(left) eq_refl eq_refl ltac:(left) eq_refl)
    as (fx & fy & Hx & Hy & _ & _ & Hux & _ & _ & Huy & _).
  exists fx, fy. done.
Defined.

Example getAllFoods_shared_id :
  uniqueId <$> getAllFoods Examples.shared_id
  = [Some "5-burgers"; Some "6-burgers"; Some "5-pizzas"].
Proof. reflexivity. Qed.

(** C1, at the failing input: the burgers and the pizzas requests both
    delivered an item with the raw id 5, and the desserts request delivered
    a body that is not an array.  The successful categories hold both items,
    stamped 5-burgers and 5-pizzas, and that is what [getAllFoods] returns
    when the desserts request is rejected instead; with the malformed body
    it returns the empty list, so that neither item is retained.  What does
    hold in every run is that the uniqueIds of the returned list are
    pairwise different and that every returned item is stamped. *)
Theorem getAllFoods_malformed_body_drops_shared_ids :
  getAllFoods Examples.shared_id_malformed_desserts = [] ∧
  uniqueId <$> union_of_successes Examples.shared_id_malformed_desserts
  = [Some "5-burgers"; Some "6-burgers"; Some "5-pizzas"] ∧
  uniqueId <$> getAllFoods Examples.shared_id
  = [Some "5-burgers"; Some "6-burgers"; Some "5-pizzas"] ∧
  (∀ r, NoDup (uniqueId <$> getAllFoods r) ∧ Forall stamped (getAllFoods r)).
Proof.
  split_and!; [reflexivity..|].
  intros r. split; [apply getAllFoods_NoDup|apply getAllFoods_stamped].
Qed.

End UniqueIds.

(** ** Partial failure *)
Section PartialFailure.
Import Api.

Lemma foldl_push_unique_first (index : nat) (items : list FoodItem) (acc : Acc)
    (seen : list string) :
  (∀ a, a +:+ "-" +:+ category_at index ∈ seenIds acc ↔ a ∈ seen) →
  let acc' := foldl push_unique acc (stamp index <$> items) in
  allFoods acc' = allFoods acc ++ (stamp index <$> first_by_id seen items) ∧
  (∀ u, u ∈ seenIds acc' →
        u ∈ seenIds acc ∨ ∃ a, u = a +:+ "-" +:+ category_at index).
Proof.
  revert acc seen. induction items as [|x items IH]; intros acc seen Hseen; csimpl.
  - rewrite app_nil_r. auto.
  - unfold push_unique at 2 4. csimpl.
    assert (truthy (id x +:+ "-" +:+ category_at index) = true) as ->
      by (by eapply (stamp_uniqueId_truthy index x)).
    csimpl. case_bool_decide as Hfresh; case_bool_decide as Hin; csimpl;
      try (exfalso; rewrite Hseen in Hfresh; tauto).
    + destruct (IH {| allFoods := allFoods acc ++ [stamp index x];
                      seenIds := {[id x +:+ "-" +:+ category_at index]} ∪ seenIds acc |}
                   (id x :: seen)) as [Hall Hsub].
      { intros a. simpl. rewrite elem_of_union, elem_of_singleton, elem_of_cons, Hseen.
        split; (intros [Ha|Ha]; [left|by right]).
        - by apply uniqueId_inj in Ha as [-> _]; auto using category_at_hyphen_free.
        - by rewrite Ha. }
      csimpl in *. split.
      * by rewrite Hall, <-app_assoc.
      * intros u Hu. destruct (Hsub u Hu) as [Hu'|?]; [|by right].
        apply elem_of_union in Hu' as [->%elem_of_singleton|?]; eauto.
    + by apply IH.
Qed.

Lemma forEach_from_union (rs : list Settled) (index : nat) (acc acc' : Acc) :
  index + length rs ≤ length categories →
  (∀ u, u ∈ seenIds acc → ∃ a j, j < index ∧ u = a +:+ "-" +:+ category_at j) →
  forEach_from index rs acc = inr acc' →
  allFoods acc' = allFoods acc ++ concat (imap (λ i, successful_items (index + i)) rs).
Proof.
  revert index acc. induction rs as [|r rs IH]; intros index acc Hlen Hseen Hrun.
  - exc_simpl. by rewrite app_nil_r.
  - simpl in Hrun. unfold bind in Hrun at 1.
    destruct (on_result acc index r) as [e|acc1] eqn:Hr; [done|].
    rewrite imap_cons, concat_cons, Nat.add_0_r.
    assert (allFoods acc1 = allFoods acc ++ successful_items index r ∧
            ∀ u, u ∈ seenIds acc1 → ∃ a j, j < S index ∧ u = a +:+ "-" +:+ category_at j)
      as [Hall Hseen1].
    { destruct r as [[? []]|]; exc_simpl;
        try (rewrite app_nil_r; split; [done|]; intros u Hu;
             destruct (Hseen u Hu) as (a & j & ? & ?); exists a, j; split; [lia|done]).
      destruct (foldl_push_unique_first index items acc []) as [Hall Hsub].
      { intros a. split; [|by intros ?%elem_of_nil].
        intros (a' & j & Hj & Heq)%Hseen. exfalso.
        apply uniqueId_inj in Heq as [_ Heq]; auto using category_at_hyphen_free.
        apply category_at_inj in Heq; simpl in *; lia. }
      split; [done|]. intros u Hu. destruct (Hsub u Hu) as [Hu'|[a ->]].
      - destruct (Hseen u Hu') as (a & j & ? & ?). exists a, j. split; [lia|done].
      - exists a, index. split; [lia|done]. }
    rewrite (IH (S index) acc1); [|simpl in *; lia|done|done].
    rewrite Hall, <-app_assoc. do 3 f_equal.
    apply imap_ext. intros i x _. simpl. f_equal. lia.
Qed.

(** X1: when every fulfilled response carries an array (or nothing),
    [getAllFoods] returns the union of the successful categories: their
    items in category order and then response order, each stamped with its
    category, the first of the items of one response that share a raw id
    standing for all; rejected requests and empty bodies contribute
    nothing. *)
Lemma getAllFoods_union (r : Results) :
  forallb well_formed (results_list r) = true →
  getAllFoods r = union_of_successes r.
Proof.
  intros Hwf. destruct (aggregate_well_formed r Hwf) as (foods & Hrun & ->).
  destruct (aggregate_run r foods Hrun) as (acc & Hloop & <- & _).
  apply forEach_from_union in Hloop; [|done|set_solver]. by rewrite Hloop.
Qed.

(** Two of seven requests deliver items, one of them a duplicate; the
    result is the two burgers and the lemonade. *)
Lemma getAllFoods_union_witness :
  getAllFoods MoreExamples.mixed
  = [stamp 0 (Examples.food "5" "Cheeseburger"); stamp 0 (Examples.food "6" "Hamburger");
     stamp 3 (Examples.food "5" "Lemonade")].
Proof. rewrite (getAllFoods_union MoreExamples.mixed eq_refl). reflexivity. Defined.

(** One body that is not an array empties the whole result. *)
Lemma getAllFoods_malformed (r : Results) :
  forallb well_formed (results_list r) = false → getAllFoods r = [].
Proof.
  intros Hwf. unfold getAllFoods, aggregate, bind at 1.
  destruct (forEach_from 0 _ _) as [e|acc] eqn:Hloop; [done|].
  assert (forallb well_formed (results_list r) = true); [|congruence].
  eapply forEach_from_well_formed; eauto.
Qed.

Lemma forEach_from_all_rejected (rs : list Settled) (index : nat) (acc : Acc) :
  Forall (λ s, ∃ reason, s = Rejected reason) rs → forEach_from index rs acc = inr acc.
Proof.
  intros Hrs. revert index. induction Hrs as [|r rs [reason ->] _ IH]; intros index; [done|].
  simpl. unfold bind, ret. apply IH.
Qed.

(** When every request fails there is nothing to return. *)
Lemma getAllFoods_all_rejected (r : Results) :
  Forall (λ s, ∃ reason, s = Rejected reason) (results_list r) → getAllFoods r = [].
Proof.
  intros Hr. unfold getAllFoods, aggregate.
  by rewrite (forEach_from_all_rejected _ 0 _ Hr).
Qed.

(** C2, at the failing input: the burgers request delivered two items and
    the pizzas request delivered a body that is not an array.  The union of
    the successful categories is the two burgers; [getAllFoods] returns the
    empty list. *)
Theorem getAllFoods_malformed_body_drops_successes :
  getAllFoods Examples.malformed_pizzas = [] ∧
  union_of_successes Examples.malformed_pizzas =
    [stamp 0 (Examples.food "5" "Cheeseburger"); stamp 0 (Examples.food "6" "Hamburger")].
Proof. split; reflexivity. Qed.

End PartialFailure.

(** ** [searchFoods] *)
Section SearchFacts.
Import Api.

Lemma prefix_spec (t s : string) :
  String.prefix t s = true ↔ ∃ after, s = t +:+ after.
Proof.
  revert s. induction t as [|c t IH]; intros [|d s]; simpl.
  - split; [by exists ""|done].
  - split; [by exists (String d s)|done].
  - split; [done|]. by intros [after ?].
  - destruct (ascii_dec c d) as [->|Hne].
    + rewrite IH. split; intros [after Hs]; exists after.
      * by rewrite string_app_cons, Hs.
      * rewrite string_app_cons in Hs. by injection Hs.
    + split; [done|]. intros [after Hs].
      rewrite string_app_cons in Hs. by injection Hs as ->.
Qed.

Lemma includes_spec (s t : string) : includes s t = true ↔ substring_of t s.
Proof.
  unfold substring_of. induction s as [|c s IH]; cbn [includes].
  - rewrite orb_false_r, prefix_spec. split.
    + intros [after Hs]. by exists "", after.
    + intros ([|? ?] & after & Hs); [by exists after|done].
  - rewrite orb_true_iff, prefix_spec, IH. split.
    + intros [[after Hs]|(before & after & Hs)].
      * by exists "", after.
      * exists (String c before), after. by rewrite string_app_cons, Hs.
    + intros ([|d before] & after & Hs).
      * left. by exists after.
      * right. rewrite string_app_cons in Hs. injection Hs as -> Hs. by exists before, after.
Qed.

Lemma lower_ascii_idemp (c : ascii) : lower_ascii (lower_ascii c) = lower_ascii c.
Proof. by destruct c as [[] [] [] [] [] [] [] []]. Qed.

Lemma is_space_lower_ascii (c : ascii) : Ascii.is_space (lower_ascii c) = Ascii.is_space c.
Proof. by destruct c as [[] [] [] [] [] [] [] []]. Qed.

Lemma toLowerCase_idemp (s : string) : toLowerCase (toLowerCase s) = toLowerCase s.
Proof. induction s as [|c s IH]; simpl; [done|]. by rewrite lower_ascii_idemp, IH. Qed.

Lemma toLowerCase_trimStart (s : string) :
  toLowerCase (trimStart s) = trimStart (toLowerCase s).
Proof.
  induction s as [|c s IH]; simpl; [done|].
  rewrite is_space_lower_ascii. by destruct (Ascii.is_space c).
Qed.

Lemma toLowerCase_rev_app (s1 s2 : string) :
  toLowerCase (String.rev_app s1 s2) = String.rev_app (toLowerCase s1) (toLowerCase s2).
Proof. revert s2. induction s1 as [|c s1 IH]; intros s2; simpl; [done|]. by rewrite IH. Qed.

Lemma toLowerCase_trim (s : string) : toLowerCase (trim s) = trim (toLowerCase s).
Proof.
  unfold trim, trimEnd, String.rev.
  by rewrite toLowerCase_rev_app, toLowerCase_trimStart, toLowerCase_rev_app,
    toLowerCase_trimStart.
Qed.

(** The search term is already in lower case. *)
Lemma searchTerm_lower (query : string) :
  toLowerCase (trim (toLowerCase query)) = trim (toLowerCase query).
Proof. by rewrite toLowerCase_trim, toLowerCase_idemp. Qed.

Lemma matches_spec (query : string) (food : FoodItem) :
  matches (trim (toLowerCase query)) food = true ↔
  substring_ci (trim (toLowerCase query)) (name food) ∨
  substring_ci (trim (toLowerCase query)) (dsc food).
Proof.
  unfold matches, substring_ci.
  by rewrite orb_true_iff, !includes_spec, searchTerm_lower.
Qed.

(** C10: [searchFoods] returns the empty list when the query is empty or
    the list is absent; for a non-empty query it returns, in their order,
    exactly the items whose name or description contains the lower-cased,
    trimmed query as a substring, the case of letters ignored. *)
Theorem searchFoods_spec (query : string) (foods : option (list FoodItem)) :
  (query = "" → searchFoods query foods = []) ∧
  (foods = None → searchFoods query foods = []) ∧
  (∀ fs, query ≠ "" → foods = Some fs →
     let searchTerm := trim (toLowerCase query) in
     ∃ keep : FoodItem → bool,
       (∀ food, keep food = true ↔
                substring_ci searchTerm (name food) ∨ substring_ci searchTerm (dsc food)) ∧
       searchFoods query foods = List.filter keep fs).
Proof.
  split_and!.
  - intros ->. by destruct foods.
  - by intros ->.
  - intros fs Hq -> searchTerm. exists (matches searchTerm). split.
    + intros food. apply matches_spec.
    + unfold searchFoods. by destruct query.
Qed.

(** A search for "  BURGER " finds the cheeseburger and not the pizza. *)
Lemma searchFoods_spec_witness :
  searchFoods "" (Some [Examples.food "1" "Cheeseburger"]) = [] ∧
  searchFoods "x" None = [] ∧
  searchFoods "  BURGER " (Some [Examples.food "1" "Cheeseburger"; Examples.food "2" "Pizza"])
    = [Examples.food "1" "Cheeseburger"].
Proof.
  split_and!.
  - exact (proj1 (searchFoods_spec "" (Some [Examples.food "1" "Cheeseburger"])) eq_refl).
  - exact (proj1 (proj2 (searchFoods_spec "x" None)) eq_refl).
  - destruct (searchFoods_spec "  BURGER "
      (Some [Examples.food "1" "Cheeseburger"; Examples.food "2" "Pizza"]))
      as (_ & _ & H).
    destruct (H _ ltac:(discriminate) eq_refl) as (keep & Hkeep & Heq).
    assert (keep (Examples.food "1" "Cheeseburger") = true) as Hyes.
    { apply Hkeep. left. by exists "cheese", "". }
    assert (keep (Examples.food "2" "Pizza") = false) as Hno.
    { apply not_true_is_false. intros [Hk|Hk]%Hkeep;
        apply includes_spec in Hk; vm_compute in Hk; discriminate. }
    rewrite Heq. simpl. by rewrite Hyes, Hno.
Defined.

Example trim_toLowerCase_example : trim (toLowerCase "  Spicy BBQ Wings  ") = "spicy bbq wings".
Proof. reflexivity. Qed.

Example includes_examples :
  includes "cheeseburger" "burger" = true ∧ includes "cheeseburger" "" = true ∧
  includes "cheeseburger" "pizza" = false ∧ includes "" "" = true.
Proof. by split_and!. Qed.

(** A query of blanks is not empty: its search term is, and every item matches. *)
Example searchFoods_blank_query :
  searchFoods "   " (Some [Examples.food "1" "Cheeseburger"; Examples.food "2" "Pizza"])
  = [Examples.food "1" "Cheeseburger"; Examples.food "2" "Pizza"].
Proof. reflexivity. Qed.

End SearchFacts.

(** ** The image probe *)
Section ProbeFacts.
Import ImageValidation.

(** A settled promise stays as it is, whatever is delivered afterwards. *)
Lemma handle_settled (p : Probe) (e : Event) (v : bool) :
  promise p = Resolved v → promise (handle p e) = Resolved v.
Proof.
  intros Hp. destruct e; simpl; unfold resolve; simpl; rewrite ?Hp; try done.
  destruct (timer_armed p); simpl; by rewrite Hp.
Qed.

Lemma foldl_handle_settled (events : list Event) (p : Probe) (v : bool) :
  promise p = Resolved v → promise (foldl handle p events) = Resolved v.
Proof.
  revert p. induction events as [|e events IH]; intros p Hp; [done|].
  simpl. by apply IH, handle_settled.
Qed.

(** While the timer is armed, the first event settles the promise: with
    [true] when it is the image's [onload], with [false] otherwise. *)
Lemma first_event_settles (e : Event) (events : list Event) :
  promise (foldl handle {| promise := Pending; timer_armed := true |} (e :: events))
  = Resolved (match e with ImgLoad => true | _ => false end).
Proof. simpl. apply foldl_handle_settled. by destruct e. Qed.

Lemma schedule_nonempty (timeoutMs : Z) (o : ImageOutcome) :
  ∃ e events, schedule timeoutMs o = e :: events ∧
    (e = ImgLoad ↔ ∃ t, o = Loads t ∧ (t < timeoutMs)%Z).
Proof.
  destruct o as [t|t|]; simpl; [| |].
  - destruct (Z.ltb_spec t timeoutMs); eexists _, _; (split; [done|]).
    + split; [eauto|done].
    + split; [done|]. intros (t' & [= <-] & ?). lia.
  - destruct (Z.ltb_spec t timeoutMs); eexists _, _; (split; [done|]);
      (split; [done|by intros (t' & ? & ?)]).
  - eexists _, _. split; [done|]. split; [done|by intros (t' & ? & ?)].
Qed.

(** The promise is settled with the verdict of the first event. *)
Lemma checkImageUrl_resolved (timeoutMs : Z) (world : string → ImageOutcome)
    (url : string) :
  ∃ b, checkImageUrl timeoutMs world url = Resolved b ∧
       (b = true ↔ url ≠ "" ∧ loads_within timeoutMs world url).
Proof.
  unfold checkImageUrl, loads_within. destruct url as [|c url]; simpl.
  - exists false. split; [done|]. split; [done|by intros [? _]].
  - destruct (schedule_nonempty timeoutMs (world (String c url)))
      as (e & events & -> & He).
    rewrite first_event_settles. eexists. split; [done|].
    rewrite <-He. split; [by destruct e|by intros [_ ->]].
Qed.

(** C9: for every url the promise of [checkImageUrl] is resolved, never
    left pending and never rejected; it is resolved with [true] exactly when
    the url is not empty and the image loads within the timeout, so with
    [false] for an empty url, a load error, and a timeout that expires. *)
Theorem checkImageUrl_always_resolves (timeoutMs : Z) (world : string → ImageOutcome)
    (url : string) :
  ∃ b, checkImageUrl timeoutMs world url = Resolved b ∧
       (b = true ↔ url ≠ "" ∧ loads_within timeoutMs world url) ∧
       (url = "" → b = false) ∧
       (∀ t, world url = Errors t → b = false) ∧
       (world url = Hangs → b = false) ∧
       (∀ t, world url = Loads t → (timeoutMs ≤ t)%Z → b = false).
Proof.
  destruct (checkImageUrl_resolved timeoutMs world url) as (b & Hrun & Hb).
  exists b. unfold loads_within in Hb.
  split_and!; [done|done|..]; intros; apply not_true_is_false; rewrite Hb.
  - by intros [? _].
  - intros (_ & t' & Ht' & _). congruence.
  - intros (_ & t' & Ht' & _). congruence.
  - intros (_ & t' & Ht' & Hlt). assert (t' = t) by congruence. lia.
Qed.

(** With the 2000 ms timeout, an image that loads after 100 ms probes as
    valid, and an empty url as invalid. *)
Lemma checkImageUrl_always_resolves_witness :
  checkImageUrl 2000 Examples.world "https://img.example/1" = Resolved true ∧
  checkImageUrl 2000 Examples.world "" = Resolved false.
Proof.
  split.
  - destruct (checkImageUrl_always_resolves 2000 Examples.world "https://img.example/1")
      as (b & -> & Hb & _).
    f_equal. apply Hb. split; [done|]. exists 100%Z. split; [reflexivity|lia].
  - destruct (checkImageUrl_always_resolves 2000 Examples.world "")
      as (b & -> & _ & Hb & _).
    f_equal. by apply Hb.
Defined.

Example checkImageUrl_examples :
  checkImageUrl 2000 Examples.world <$>
    ["https://img.example/1"; "https://img.example/2"; "https://img.example/3";
     "https://img.example/4"; ""]
  = [Resolved true; Resolved false; Resolved false; Resolved false; Resolved false].
Proof. reflexivity. Qed.

End ProbeFacts.

(** ** The validation cache *)
Section CacheFacts.
Import MenuData.

Lemma isExpired_spec (now T : Z) (fs : option (list FoodItem)) :
  isExpired now {| foods := fs; timestamp := Some T |} = true ↔ (now - T > DAY_MS)%Z.
Proof. unfold isExpired. simpl. by rewrite bool_decide_eq_true. Qed.

Lemma initValidatedFoods_fresh (key : string) (now T : Z) (ls : Storage)
    (items : list FoodItem) :
  ls !! key = Some (Json {| foods := Some items; timestamp := Some T |}) →
  (now - T ≤ DAY_MS)%Z →
  initValidatedFoods key now ls = (items, ls).
Proof.
  intros Hls Hnow. unfold initValidatedFoods. rewrite Hls. simpl.
  assert (isExpired now {| foods := Some items; timestamp := Some T |} = false) as ->.
  { apply not_true_iff_false. rewrite isExpired_spec. lia. }
  simpl. by destruct items.
Qed.

Lemma initValidatedFoods_expired (key : string) (now T : Z) (ls : Storage)
    (items : option (list FoodItem)) :
  ls !! key = Some (Json {| foods := items; timestamp := Some T |}) →
  (now - T > DAY_MS)%Z →
  initValidatedFoods key now ls = ([], delete key ls).
Proof.
  intros Hls Hnow. unfold initValidatedFoods. rewrite Hls. simpl.
  assert (isExpired now {| foods := items; timestamp := Some T |} = true) as ->
    by (by apply isExpired_spec).
  by destruct items.
Qed.

(** C5: a record written with timestamp [T] under a cache key is served by
    a read at [now] when [now - T <= 24h], and the store is left as it is;
    when [now - T > 24h] the read returns nothing and removes the record.
    In particular the record is served at [T + 24h - 1] and gone at
    [T + 24h + 1]. *)
Theorem cache_ttl_boundary (st : State) (ls : Storage) (key : string)
    (items : list FoodItem) (T now : Z) :
  let written :=
    (applyEffect (st, ls) (SetItem key {| foods := Some items; timestamp := Some T |})).2 in
  ((now - T ≤ DAY_MS)%Z →
     initValidatedFoods key now written = (items, written)) ∧
  ((now - T > DAY_MS)%Z →
     initValidatedFoods key now written = ([], delete key written) ∧
     delete key written !! key = None ∧
     initHasValidated key now (delete key written) = false) ∧
  initValidatedFoods key (T + DAY_MS - 1) written = (items, written) ∧
  initValidatedFoods key (T + DAY_MS + 1) written = ([], delete key written).
Proof.
  simpl.
  assert (<[key:=Json {| foods := Some items; timestamp := Some T |}]> ls !! key
          = Some (Json {| foods := Some items; timestamp := Some T |})) as Hw
    by apply lookup_insert_eq.
  split_and!.
  - intros Hnow. by eapply initValidatedFoods_fresh.
  - intros Hnow. split_and!.
    + by eapply initValidatedFoods_expired.
    + apply lookup_delete_eq.
    + unfold initHasValidated. by rewrite lookup_delete_eq.
  - eapply initValidatedFoods_fresh; [done|lia].
  - eapply initValidatedFoods_expired; [done|lia].
Qed.

(** The record written at 1000 is served one millisecond before the 24
    hours are over and purged one millisecond after. *)
Lemma cache_ttl_boundary_witness :
  let items := [Examples.food "1" "Cheeseburger"] in
  let written : Storage :=
    {[ VALIDATION_KEY := Json {| foods := Some items; timestamp := Some 1000%Z |} ]} in
  initValidatedFoods VALIDATION_KEY (1000 + 86400000 - 1) written = (items, written) ∧
  initValidatedFoods VALIDATION_KEY (1000 + 86400000 + 1) written = ([], ∅).
Proof.
  intros items written.
  pose proof (cache_ttl_boundary (mkState [] false 0 false) ∅ VALIDATION_KEY items 1000) as H.
  split.
  - apply (proj1 (H (1000 + 86400000 - 1)%Z)). unfold DAY_MS. lia.
  - destruct (proj1 (proj2 (H (1000 + 86400000 + 1)%Z))) as [Heq _]; [unfold DAY_MS; lia|].
    etrans; [exact Heq|reflexivity].
Defined.

End CacheFacts.

(** ** The validation pass *)
Section PassFacts.
Import ImageValidation MenuData PassSpec.

Variable isMobile : bool.
Variable world : string → ImageOutcome.

Lemma batchSize_pos : 0 < batchSize isMobile.
Proof. unfold batchSize. destruct isMobile; lia. Qed.

Lemma probeFood_resolves (food : FoodItem) :
  probeFood isMobile world food = Some (food, isValid (timeoutMs isMobile) world food).
Proof.
  unfold probeFood, isValid.
  by destruct (checkImageUrl_resolved (timeoutMs isMobile) world (img food))
    as (b & -> & _).
Qed.

Lemma mapM_probeFood (batch : list FoodItem) :
  mapM (probeFood isMobile world) batch
  = Some ((λ f, (f, isValid (timeoutMs isMobile) world f)) <$> batch).
Proof.
  apply mapM_Some_2, Forall2_fmap_r, Forall_Forall2_diag, Forall_true.
  intros food. apply probeFood_resolves.
Qed.

Lemma foldl_classify (valid : FoodItem → bool) (batch : list FoodItem) (st : Loop) :
  foldl classify st ((λ f, (f, valid f)) <$> batch)
  = {| validFirst := validFirst st ++ List.filter valid batch;
       invalidWithinValidated :=
         invalidWithinValidated st ++ List.filter (λ f, negb (valid f)) batch;
       trace := trace st |}.
Proof.
  revert st. induction batch as [|f batch IH]; intros st; csimpl.
  - rewrite !app_nil_r. by destruct st.
  - rewrite IH. unfold classify. simpl. destruct (valid f); simpl;
      by rewrite <-?app_assoc.
Qed.

(** Exact arithmetic of the progress formula. *)
Lemma batchProgress_percent (i len : nat) :
  i < len →
  (batchProgress isMobile i len
   == percent (Nat.min (i + batchSize isMobile) len) len)%Q.
Proof.
  intros Hi. unfold batchProgress, percent.
  set (b := batchSize isMobile).
  assert (0 < inject_Z (Z.of_nat len))%Q as Hlen.
  { rewrite <-(Zlt_Qlt 0). lia. }
  destruct (Nat.le_gt_cases (i + b) len) as [Hle|Hgt].
  - rewrite Nat.min_l by done.
    apply Q.min_l.
    assert (inject_Z (Z.of_nat (i + b)) / inject_Z (Z.of_nat len) <= 1)%Q as H1.
    { apply Qle_shift_div_r; [done|]. rewrite Qmult_1_l, <-Zle_Qle. lia. }
    lra.
  - rewrite Nat.min_r by lia.
    assert (1 <= inject_Z (Z.of_nat (i + b)) / inject_Z (Z.of_nat len))%Q as H1.
    { apply Qle_shift_div_l; [done|]. rewrite Qmult_1_l, <-Zle_Qle. lia. }
    rewrite Q.min_r by lra. field. lra.
Qed.

(** *** Readings of a trace that was built by appending *)

Lemma probedUrls_app (tr1 tr2 : list Effect) :
  probedUrls (tr1 ++ tr2) = probedUrls tr1 ++ probedUrls tr2.
Proof. apply omap_app. Qed.

Lemma progressValues_app (tr1 tr2 : list Effect) :
  progressValues (tr1 ++ tr2) = progressValues tr1 ++ progressValues tr2.
Proof. apply omap_app. Qed.

Lemma probedUrls_probes (batch : list FoodItem) :
  probedUrls (CheckImageUrl ∘ img <$> batch) = img <$> batch.
Proof. induction batch as [|f batch IH]; [done|]. csimpl. by rewrite IH. Qed.

Lemma progressLog_probes (probed : nat) (batch : list FoodItem) (tr : list Effect) :
  progressLog probed ((CheckImageUrl ∘ img <$> batch) ++ tr)
  = progressLog (probed + length batch) tr.
Proof.
  revert probed. induction batch as [|f batch IH]; intros probed; csimpl.
  - by rewrite Nat.add_0_r.
  - rewrite IH. f_equal. lia.
Qed.

Lemma progressLog_snd (probed : nat) (tr : list Effect) :
  (progressLog probed tr).*2 = progressValues tr.
Proof.
  revert probed. induction tr as [|e tr IH]; intros probed; [done|].
  destruct e; csimpl; by rewrite ?IH.
Qed.

(** *** The batch loop *)

Lemma batchLoop_done (fuel : nat) (toValidate : list FoodItem) (i : nat) (st : Loop) :
  length toValidate ≤ i → batchLoop isMobile world fuel toValidate i st = Some st.
Proof.
  intros Hi. destruct fuel; simpl; by rewrite bool_decide_eq_false_2 by lia.
Qed.

Lemma batchLoop_spec (toValidate : list FoodItem) (fuel i : nat) (st : Loop) :
  length toValidate - i ≤ fuel →
  let valid := isValid (timeoutMs isMobile) world in
  ∃ tr,
    batchLoop isMobile world fuel toValidate i st
    = Some {| validFirst := validFirst st ++ List.filter valid (drop i toValidate);
              invalidWithinValidated :=
                invalidWithinValidated st
                ++ List.filter (λ f, negb (valid f)) (drop i toValidate);
              trace := trace st ++ tr |} ∧
    probedUrls tr = img <$> drop i toValidate ∧
    forallb isLoopEffect tr = true ∧
    Checkpoints i (length toValidate) (batchSize isMobile)
      (progressLog (Nat.min i (length toValidate)) tr).
Proof.
  intros Hfuel valid. revert i st Hfuel.
  induction fuel as [|fuel IH]; intros i st Hfuel;
    destruct (Nat.le_gt_cases (length toValidate) i) as [Hi|Hi]; try lia.
  1,2: exists []; rewrite batchLoop_done, drop_ge, !app_nil_r by done;
       by destruct st.
  simpl. rewrite bool_decide_eq_true_2 by done.
  unfold slice. replace (i + batchSize isMobile - i) with (batchSize isMobile) by lia.
  set (b := batchSize isMobile). set (batch := take b (drop i toValidate)).
  rewrite mapM_probeFood. csimpl. rewrite foldl_classify. simpl.
  pose proof batchSize_pos as Hb. fold b in Hb.
  edestruct (IH (i + b)) as (tr & -> & Hprobed & Hloop & Hlog); [lia|].
  assert (drop i toValidate = batch ++ drop (i + b) toValidate) as Hsplit.
  { unfold batch. by rewrite <-drop_drop, take_drop. }
  eexists. split_and!.
  - simpl. rewrite Hsplit, !List.filter_app, <-!app_assoc. reflexivity.
  - rewrite !probedUrls_app, probedUrls_probes, Hprobed, Hsplit, fmap_app.
    f_equal. by destruct isMobile.
  - rewrite !forallb_app, Hloop, andb_true_r. apply andb_true_iff. split.
    + apply forallb_forall. by intros e (f & <- & _)%in_map_iff.
    + by destruct isMobile.
  - rewrite Nat.min_l by lia. rewrite progressLog_probes. simpl.
    assert (i + length batch = Nat.min (i + b) (length toValidate)) as ->.
    { unfold batch. rewrite length_take, length_drop. lia. }
    split_and!; [done|done|by apply batchProgress_percent|].
    by destruct isMobile.
Qed.

(** *** The whole pass *)

Lemma take_min_length {A} (l : list A) (n : nat) :
  take (Nat.min (length l) n) l = take n l.
Proof.
  destruct (Nat.le_gt_cases n (length l)); [by rewrite Nat.min_r|].
  rewrite Nat.min_l, !take_ge by lia. done.
Qed.

Lemma drop_min_length {A} (l : list A) (n : nat) :
  drop (Nat.min (length l) n) l = drop n l.
Proof.
  destruct (Nat.le_gt_cases n (length l)); [by rewrite Nat.min_r|].
  rewrite Nat.min_l, !drop_ge by lia. done.
Qed.

(** The trace of a pass: the reset of the progress, the batch loop over the
    window, then the new list, the flags, and the cache write. *)
Lemma validateImages_spec (closure : State) (foods : list FoodItem) (now : Z) :
  ∃ loop,
    validateImages isMobile world closure foods now
    = Some ([SetValidationProgress 0] ++ loop ++
            [SetValidatedFoods (validFirstOrder isMobile world foods);
             SetIsValidating false; SetValidationProgress 100;
             SetItem VALIDATION_KEY
               {| foods := Some (validatedFoods closure); timestamp := Some now |}]) ∧
    probedUrls loop = img <$> window isMobile foods ∧
    forallb isLoopEffect loop = true ∧
    Checkpoints 0 (length (window isMobile foods)) (batchSize isMobile)
      (progressLog 0 loop).
Proof.
  unfold validateImages, slice. rewrite Nat.sub_0_r, drop_0, take_min_length, drop_min_length.
  fold (window isMobile foods) (beyond isMobile foods).
  edestruct (batchLoop_spec (window isMobile foods) (length (window isMobile foods)) 0)
    as (loop & -> & Hprobed & Hloop & Hlog); [lia|].
  exists loop. rewrite drop_0 in *. simpl in *. by split_and!.
Qed.

(** Loop effects touch nothing but the progress. *)
Lemma applyEffects_loop (loop : list Effect) (st : State) (ls : Storage) :
  forallb isLoopEffect loop = true →
  ∃ progress,
    applyEffects (st, ls) loop
    = ({| validatedFoods := validatedFoods st; isValidating := isValidating st;
          validationProgress := progress; hasValidated := hasValidated st |}, ls).
Proof.
  revert st. induction loop as [|e loop IH]; intros st Hloop.
  - exists (validationProgress st). by destruct st.
  - simpl in Hloop. apply andb_true_iff in Hloop as [He Hloop].
    destruct e; try done; simpl.
    + by destruct (IH {| validatedFoods := validatedFoods st;
                         isValidating := isValidating st;
                         validationProgress := progress;
                         hasValidated := hasValidated st |} Hloop) as [p ->]; eexists.
    + by apply IH.
    + by apply IH.
Qed.

(** The hook state and the store after the effects of a pass. *)
Lemma validateImages_final (closure st : State) (ls : Storage) (foods : list FoodItem)
    (now : Z) :
  ∃ tr, validateImages isMobile world closure foods now = Some tr ∧
    applyEffects (st, ls) tr
    = ({| validatedFoods := validFirstOrder isMobile world foods;
          isValidating := false; validationProgress := 100;
          hasValidated := hasValidated st |},
       <[VALIDATION_KEY :=
           Json {| foods := Some (validatedFoods closure); timestamp := Some now |}]> ls).
Proof.
  destruct (validateImages_spec closure foods now) as (loop & -> & _ & Hloop & _).
  eexists. split; [done|]. unfold applyEffects. rewrite foldl_app. simpl.
  rewrite foldl_app.
  destruct (applyEffects_loop loop
    {| validatedFoods := validatedFoods st; isValidating := isValidating st;
       validationProgress := 0; hasValidated := hasValidated st |} ls Hloop) as [p Hp].
  unfold applyEffects in Hp. by rewrite Hp.
Qed.

(** Splitting a list by a test and gluing the halves loses nothing. *)
Lemma filter_partition_perm {A} (test : A → bool) (l : list A) :
  List.filter test l ++ List.filter (λ x, negb (test x)) l ≡ₚ l.
Proof.
  induction l as [|x l IH]; [done|]. simpl. destruct (test x); simpl.
  - by rewrite IH.
  - by rewrite <-Permutation_middle, IH.
Qed.

Lemma validFirstOrder_perm (foods : list FoodItem) :
  validFirstOrder isMobile world foods ≡ₚ foods.
Proof.
  unfold validFirstOrder, window, beyond.
  by rewrite app_assoc, filter_partition_perm, take_drop.
Qed.

End PassFacts.

(** ** Progress of a pass *)
Section ProgressFacts.
Import ImageValidation MenuData PassSpec.

Lemma percent_mono (n m len : nat) : n ≤ m → (percent n len <= percent m len)%Q.
Proof.
  intros Hnm. unfold percent.
  apply Qmult_le_compat_r; [|done].
  unfold Qdiv. apply Qmult_le_compat_r.
  - rewrite <-Zle_Qle. lia.
  - apply Qinv_le_0_compat. rewrite <-(Zle_Qle 0). lia.
Qed.

Lemma percent_full (len : nat) : 0 < len → (percent len len == 100)%Q.
Proof.
  intros Hlen. unfold percent. field.
  intros H. assert (0 < inject_Z (Z.of_nat len))%Q; [|lra].
  rewrite <-(Zlt_Qlt 0). lia.
Qed.

Lemma percent_le_100 (n len : nat) : n ≤ len → (percent n len <= 100)%Q.
Proof.
  intros Hn. destruct len as [|len].
  - assert (n = 0) as -> by lia. by vm_compute.
  - rewrite <-(percent_full (S len)) by lia. by apply percent_mono.
Qed.

Lemma percent_nonneg (n len : nat) : (0 <= percent n len)%Q.
Proof.
  unfold percent. apply Qmult_le_0_compat; [|done].
  unfold Qdiv. apply Qmult_le_0_compat.
  - rewrite <-(Zle_Qle 0). lia.
  - apply Qinv_le_0_compat. rewrite <-(Zle_Qle 0). lia.
Qed.

(** Every update of the loop reports the share of the window probed so
    far, which never exceeds the window. *)
Lemma Checkpoints_Forall (i len step : nat) (log : list (nat * Q)) :
  Checkpoints i len step log →
  Forall (λ entry, entry.1 ≤ len ∧ (entry.2 == percent entry.1 len)%Q ∧
                   (entry.2 <= 100)%Q) log.
Proof.
  revert i. induction log as [|[probed progress] log IH]; intros i Hlog; [done|].
  destruct Hlog as (Hi & -> & Hp & Hlog). constructor.
  - simpl. split_and!; [lia|done|]. rewrite Hp. apply percent_le_100. lia.
  - by eapply IH.
Qed.

(** Between the initial 0 and the final 100 the updates never decrease. *)
Lemma Checkpoints_sorted (i len step : nat) (log : list (nat * Q)) (q : Q) :
  Checkpoints i len step log →
  (q <= percent (Nat.min i len) len)%Q →
  Sorted Qle (q :: log.*2 ++ [100%Q]).
Proof.
  revert i q. induction log as [|[probed progress] log IH]; intros i q Hlog Hq; simpl.
  - repeat constructor. eapply Qle_trans; [exact Hq|]. apply percent_le_100. lia.
  - destruct Hlog as (Hi & -> & Hp & Hlog). constructor.
    + apply (IH (i + step)); [done|]. rewrite Hp. apply Qle_refl.
    + constructor. rewrite Hp. eapply Qle_trans; [exact Hq|]. apply percent_mono. lia.
Qed.

Lemma progressLog_app (probed : nat) (tr1 tr2 : list Effect) :
  progressLog probed (tr1 ++ tr2)
  = progressLog probed tr1 ++ progressLog (probed + length (probedUrls tr1)) tr2.
Proof.
  revert probed. induction tr1 as [|e tr1 IH]; intros probed; simpl.
  - by rewrite Nat.add_0_r.
  - destruct e; csimpl; rewrite IH; try done. do 2 f_equal. lia.
Qed.

(** The progress log of a pass: the reset, one checkpoint per batch, and
    the final 100 once the whole window is probed. *)
Lemma validateImages_progressLog (isMobile : bool) (world : string → ImageOutcome)
    (closure : State) (foods : list FoodItem) (now : Z) :
  ∃ tr log,
    validateImages isMobile world closure foods now = Some tr ∧
    progressLog 0 tr
      = (0, 0%Q) :: log ++ [(length (window isMobile foods), 100%Q)] ∧
    progressValues tr = 0%Q :: log.*2 ++ [100%Q] ∧
    Checkpoints 0 (length (window isMobile foods)) (batchSize isMobile) log.
Proof.
  destruct (validateImages_spec isMobile world closure foods now)
    as (loop & -> & Hprobed & Hloop & Hlog).
  eexists _, (progressLog 0 loop). split_and!; [done| | |done].
  - simpl. by rewrite progressLog_app, Hprobed, length_fmap.
  - change (progressValues ([SetValidationProgress 0] ++ ?l))
      with (0%Q :: progressValues l).
    by rewrite !progressValues_app, (progressLog_snd 0).
Qed.

(** C7: over a validation pass the progress values never decrease.  The
    pass first sets 0; each batch then sets the share of the window probed
    so far, [(probed / window size) * 100], where [probed] counts the probes
    started before the update and never exceeds the window, so the value
    never exceeds 100; the last value set, and the value the state ends
    with, is exactly 100. *)
Theorem validationProgress_monotone (isMobile : bool) (world : string → ImageOutcome)
    (closure st : State) (ls : Storage) (foods : list FoodItem) (now : Z) :
  ∃ tr log,
    validateImages isMobile world closure foods now = Some tr ∧
    progressLog 0 tr
      = (0, 0%Q) :: log ++ [(length (window isMobile foods), 100%Q)] ∧
    Checkpoints 0 (length (window isMobile foods)) (batchSize isMobile) log ∧
    Forall (λ entry, entry.1 ≤ length (window isMobile foods) ∧
                     (entry.2 == percent entry.1 (length (window isMobile foods)))%Q ∧
                     (entry.2 <= 100)%Q) log ∧
    Sorted Qle (progressValues tr) ∧
    head (progressValues tr) = Some 0%Q ∧
    last (progressValues tr) = Some 100%Q ∧
    validationProgress (applyEffects (st, ls) tr).1 = 100%Q.
Proof.
  destruct (validateImages_progressLog isMobile world closure foods now)
    as (tr & log & Htr & Hlog & Hvalues & Hcheck).
  destruct (validateImages_final isMobile world closure st ls foods now)
    as (tr' & Htr' & Hfinal).
  rewrite Htr in Htr'. injection Htr' as <-.
  exists tr, log. split_and!; try done.
  - by eapply Checkpoints_Forall.
  - rewrite Hvalues. eapply Checkpoints_sorted; [done|]. apply percent_nonneg.
  - by rewrite Hvalues.
  - rewrite Hvalues, app_comm_cons. apply last_snoc.
  - by rewrite Hfinal.
Qed.

(** Desktop, 100 dishes: two batches, after 50 and after 80 probes. *)
Example progress_desktop :
  progressLog 0 <$> validateImages false Examples.world60 Examples.fresh
                      Examples.catalog100 1000
  = Some [(0, 0%Q); (50, Qmake 5000 80); (80, 100%Q); (80, 100%Q)].
Proof. by vm_compute. Qed.

(** Mobile, 100 dishes: three batches of 10. *)
Example progress_mobile :
  progressLog 0 <$> validateImages true Examples.world60 Examples.fresh
                      Examples.catalog100 1000
  = Some [(0, 0%Q); (10, Qmake 1000 30); (20, Qmake 2000 30); (30, Qmake 3000 30);
          (30, 100%Q)].
Proof. by vm_compute. Qed.

End ProgressFacts.

(** ** Order and size of the validated lists *)
Section OrderFacts.
Import ImageValidation MenuData PassSpec.

Lemma loop_effects_silent (loop : list Effect) :
  forallb isLoopEffect loop = true →
  validatedOutputs loop = [] ∧ cacheWrites loop = [].
Proof.
  induction loop as [|e loop IH]; [done|]. simpl.
  intros [He Hloop]%andb_true_iff. destruct (IH Hloop) as [Hout Hcache].
  unfold validatedOutputs, cacheWrites in *. by destruct e; csimpl; rewrite ?Hout, ?Hcache.
Qed.

(** What a pass hands to [setValidatedFoods] and to [localStorage]. *)
Lemma validateImages_outputs (isMobile : bool) (world : string → ImageOutcome)
    (closure : State) (foods : list FoodItem) (now : Z) :
  ∃ tr, validateImages isMobile world closure foods now = Some tr ∧
    probedUrls tr = img <$> window isMobile foods ∧
    validatedOutputs tr = [validFirstOrder isMobile world foods] ∧
    cacheWrites tr
    = [(VALIDATION_KEY,
        {| foods := Some (validatedFoods closure); timestamp := Some now |})].
Proof.
  destruct (validateImages_spec isMobile world closure foods now)
    as (loop & -> & Hprobed & Hloop & _).
  destruct (loop_effects_silent loop Hloop) as [Hout Hcache].
  eexists. split; [done|]. unfold validatedOutputs, cacheWrites in *.
  rewrite !probedUrls_app, !omap_app, Hprobed, Hout, Hcache. csimpl.
  by rewrite app_nil_r.
Qed.

(** The order depends on the world only through the verdicts on the window. *)
Lemma validFirstOrder_ext (isMobile : bool) (world world' : string → ImageOutcome)
    (foods : list FoodItem) :
  (∀ f, f ∈ window isMobile foods →
        isValid (timeoutMs isMobile) world' f = isValid (timeoutMs isMobile) world f) →
  validFirstOrder isMobile world' foods = validFirstOrder isMobile world foods.
Proof.
  intros Hsame. unfold validFirstOrder. f_equal; [|f_equal].
  - apply filter_ext_in. intros f Hf. by apply Hsame, list_elem_of_In.
  - apply filter_ext_in. intros f Hf. f_equal. by apply Hsame, list_elem_of_In.
Qed.

(** C6: the main validator probes the urls of the window, the first 80
    items on desktop and the first 30 on mobile, and nothing else, in
    batches of 50 or 10; it hands over the valid items of the window, then
    the invalid items of the window, then the items beyond the window in
    their original order; worlds that give the same verdicts on the window
    give the same order. *)
Theorem validateImages_window_order (isMobile : bool) (world : string → ImageOutcome)
    (closure : State) (foods : list FoodItem) (now : Z) :
  let limit := if isMobile then 30 else 80 in
  let valid := isValid (timeoutMs isMobile) world in
  ∃ tr log,
    validateImages isMobile world closure foods now = Some tr ∧
    probedUrls tr = img <$> take limit foods ∧
    length (probedUrls tr) ≤ limit ∧
    progressLog 0 tr = (0, 0%Q) :: log ++ [(length (take limit foods), 100%Q)] ∧
    Checkpoints 0 (length (take limit foods)) (if isMobile then 10 else 50) log ∧
    validatedOutputs tr
    = [List.filter valid (take limit foods)
       ++ List.filter (λ f, negb (valid f)) (take limit foods)
       ++ drop limit foods] ∧
    (∀ world' closure' now',
       (∀ f, f ∈ take limit foods → isValid (timeoutMs isMobile) world' f = valid f) →
       ∃ tr', validateImages isMobile world' closure' foods now' = Some tr' ∧
              validatedOutputs tr' = validatedOutputs tr).
Proof.
  intros limit valid.
  destruct (validateImages_outputs isMobile world closure foods now)
    as (tr & Htr & Hprobed & Hout & _).
  destruct (validateImages_progressLog isMobile world closure foods now)
    as (tr' & log & Htr' & Hlog & _ & Hcheck).
  rewrite Htr in Htr'. injection Htr' as <-.
  exists tr, log. split_and!; try done.
  - rewrite Hprobed, length_fmap. unfold window, validateWindow. fold limit.
    rewrite length_take. lia.
  - intros world' closure' now' Hsame.
    destruct (validateImages_outputs isMobile world' closure' foods now')
      as (tr' & Htr' & _ & Hout' & _).
    exists tr'. split; [done|]. rewrite Hout, Hout'. f_equal.
    by apply validFirstOrder_ext.
Qed.

(** On a desktop, with the 100 dishes of which the first 60 have a loadable
    image: the first 80 urls are probed, and a world that differs from it
    only beyond the window gives the same order. *)
Lemma validateImages_window_order_witness :
  ∃ tr, validateImages false Examples.world60 Examples.fresh Examples.catalog100 1000
        = Some tr ∧
    probedUrls tr = img <$> take 80 Examples.catalog100 ∧
    validatedOutputs tr
    = [take 60 Examples.catalog100
       ++ take 20 (drop 60 Examples.catalog100)
       ++ drop 80 Examples.catalog100].
Proof.
  destruct (validateImages_window_order false Examples.world60 Examples.fresh
              Examples.catalog100 1000)
    as (tr & log & Htr & Hprobed & _ & _ & _ & Hout & Hsame).
  destruct (Hsame Examples.world60 Examples.fresh 1000%Z) as (tr' & Htr' & _); [done|].
  exists tr. split_and!; [done|done|]. rewrite Hout. by vm_compute.
Defined.

(** *** The best-foods pass *)

Lemma probeBestFood_resolves (world : string → ImageOutcome) (food : FoodItem) :
  probeBestFood world food = Some (if isValid 2000 world food then Some food else None).
Proof.
  unfold probeBestFood, isValid.
  by destruct (checkImageUrl_resolved 2000 world (img food)) as (b & -> & _).
Qed.

Lemma omap_filter_valid (valid : FoodItem → bool) (foods : list FoodItem) :
  omap (λ food, food) ((λ f, if valid f then Some f else None) <$> foods)
  = List.filter valid foods.
Proof.
  induction foods as [|f foods IH]; [done|]. csimpl. rewrite IH. by destruct (valid f).
Qed.

(** The best-foods pass hands over the items whose probe succeeded. *)
Lemma validateBestFoodsImages_outputs (world : string → ImageOutcome)
    (foods : list FoodItem) (now : Z) :
  ∃ tr, validateBestFoodsImages world foods now = Some tr ∧
    probedUrls tr = img <$> foods ∧
    validatedOutputs tr = [List.filter (isValid 2000 world) foods] ∧
    cacheWrites tr
    = [(BEST_FOODS_KEY,
        {| foods := Some (List.filter (isValid 2000 world) foods);
           timestamp := Some now |})].
Proof.
  unfold validateBestFoodsImages.
  assert (mapM (probeBestFood world) foods
          = Some ((λ f, if isValid 2000 world f then Some f else None) <$> foods)) as ->.
  { apply mapM_Some_2, Forall2_fmap_r, Forall_Forall2_diag, Forall_true.
    intros food. apply probeBestFood_resolves. }
  csimpl. rewrite omap_filter_valid. eexists. split; [done|].
  destruct (loop_effects_silent (CheckImageUrl ∘ img <$> foods)) as [Hout Hcache].
  { apply forallb_forall. by intros e (f & <- & _)%in_map_iff. }
  unfold validatedOutputs, cacheWrites in *.
  rewrite probedUrls_app, !omap_app, probedUrls_probes, Hout, Hcache. csimpl.
  by rewrite app_nil_r.
Qed.

(** C3, as the code has it: a pass of the main catalog hands over a list of
    exactly the length of its input, a rearrangement of it; a pass of the
    best-foods list hands over the items whose probe succeeded, in their
    order, which can be fewer than it was given. *)
Theorem validation_keeps_main_catalog (isMobile : bool) (world : string → ImageOutcome)
    (closure : State) (foods : list FoodItem) (now : Z) :
  (∃ tr out,
     validateImages isMobile world closure foods now = Some tr ∧
     validatedOutputs tr = [out] ∧
     length out = length foods ∧ out ≡ₚ foods) ∧
  (∃ tr out,
     validateBestFoodsImages world foods now = Some tr ∧
     validatedOutputs tr = [out] ∧
     out = List.filter (isValid 2000 world) foods ∧
     length out ≤ length foods).
Proof.
  split.
  - destruct (validateImages_outputs isMobile world closure foods now)
      as (tr & Htr & _ & Hout & _).
    exists tr, (validFirstOrder isMobile world foods).
    pose proof (validFirstOrder_perm isMobile world foods) as Hperm.
    split_and!; [done|done| |done]. by rewrite Hperm.
  - destruct (validateBestFoodsImages_outputs world foods now)
      as (tr & Htr & _ & Hout & _).
    exists tr, (List.filter (isValid 2000 world) foods).
    split_and!; [done|done|done|]. apply filter_length_le.
Qed.

(** C3, as stated, fails on the best-foods path: the one dish whose image
    fails to load is dropped, and the list handed over is empty. *)
Lemma validateBestFoodsImages_drops_invalid :
  ∃ tr out,
    validateBestFoodsImages Examples.world [Examples.food "3" "Onion rings"] 1000 = Some tr ∧
    validatedOutputs tr = [out] ∧
    length out ≠ length [Examples.food "3" "Onion rings"].
Proof. eexists _, _. split_and!; [reflexivity|reflexivity|]. simpl. lia. Qed.

(** C4, as the code has it: the record written to the cache at the end of a
    pass holds the [validatedFoods] of the render that started the pass, not
    the list the pass has just produced.  At the failing input, the first
    pass after the catalog arrived, it holds the empty list while the pass
    produced the one dish of the catalog. *)
Theorem validateImages_caches_stale_state :
  (∀ isMobile world closure foods now,
     ∃ tr, validateImages isMobile world closure foods now = Some tr ∧
       validatedOutputs tr = [validFirstOrder isMobile world foods] ∧
       cacheWrites tr
       = [(VALIDATION_KEY,
           {| foods := Some (validatedFoods closure); timestamp := Some now |})]) ∧
  (∃ tr,
     validationEffect false Examples.world Examples.fresh
       (Some [Examples.food "1" "Cheeseburger"]) None 1000 = Some tr ∧
     validatedOutputs tr = [[Examples.food "1" "Cheeseburger"]] ∧
     cacheWrites tr
     = [(VALIDATION_KEY, {| foods := Some []; timestamp := Some 1000%Z |})]).
Proof.
  split.
  - intros isMobile world closure foods now.
    destruct (validateImages_outputs isMobile world closure foods now)
      as (tr & Htr & _ & Hout & Hcache).
    by exists tr.
  - eexists. split_and!; reflexivity.
Qed.

(** Whenever the validation effect runs a pass, what it caches is the empty
    list: the effect only starts a pass from a render without validated
    foods. *)
Lemma validationEffect_caches_nothing (isMobile : bool) (world : string → ImageOutcome)
    (st : State) (resultData : option (list FoodItem)) (connection : option Connection)
    (now : Z) (tr : list Effect) (key : string) (c : CacheData) :
  validationEffect isMobile world st resultData connection now = Some tr →
  (key, c) ∈ cacheWrites tr → foods c = Some [].
Proof.
  unfold validationEffect. destruct resultData as [data|]; [|by intros [= <-] ?%elem_of_nil].
  destruct (_ && _) eqn:Hguard; [|by intros [= <-] ?%elem_of_nil].
  apply andb_true_iff in Hguard as [_ Hempty%Nat.eqb_eq].
  destruct (_ && _); [by intros [= <-] ?%elem_of_nil|].
  destruct (validateImages_outputs isMobile world st data now) as (tr' & -> & _ & _ & Hc).
  csimpl. intros [= <-]. unfold cacheWrites in *. csimpl. rewrite Hc.
  intros [= _ ->]%list_elem_of_singleton. simpl. f_equal.
  by apply nil_length_inv.
Qed.

(** C8, as the code has it: after a pass the hook reports as [validCount]
    the length of the whole reordered list, the number of items fetched, and
    not the number of items confirmed valid.  At the failing input, 100
    dishes of which 60 are valid in the window of 80, it reports 100. *)
Theorem validCount_counts_all_items :
  (∀ isMobile world (st : State) (ls : Storage) (foods : list FoodItem) now,
     ∃ tr, validateImages isMobile world st foods now = Some tr ∧
       let after := (applyEffects (st, ls) tr).1 in
       validCount (useAllFoodsWithValidation after (Some foods)) = length foods ∧
       totalCount (useAllFoodsWithValidation after (Some foods)) = length foods) ∧
  (∃ tr,
     validateImages false Examples.world60 Examples.fresh Examples.catalog100 1000
     = Some tr ∧
     let after := (applyEffects (Examples.fresh, ∅) tr).1 in
     length (List.filter (isValid 2000 Examples.world60)
               (window false Examples.catalog100)) = 60 ∧
     length (window false Examples.catalog100) = 80 ∧
     validCount (useAllFoodsWithValidation after (Some Examples.catalog100)) = 100 ∧
     totalCount (useAllFoodsWithValidation after (Some Examples.catalog100)) = 100).
Proof.
  split.
  - intros isMobile world st ls foods now.
    destruct (validateImages_final isMobile world st st ls foods now)
      as (tr & Htr & Hfinal).
    exists tr. split; [done|]. simpl. rewrite Hfinal. simpl.
    by rewrite (validFirstOrder_perm isMobile world foods).
  - eexists. split; [by vm_compute|]. by vm_compute.
Qed.

(** A manual refresh resets the list, runs a pass, and caches the list of
    the render that memoised the callback. *)
Lemma clearCacheAndRevalidate_outputs (isMobile : bool) (world : string → ImageOutcome)
    (closure : State) (data : list FoodItem) (now : Z) :
  0 < length data →
  ∃ tr, clearCacheAndRevalidate isMobile world closure (Some data) now = Some tr ∧
    validatedOutputs tr = [[]; validFirstOrder isMobile world data] ∧
    cacheWrites tr
    = [(VALIDATION_KEY,
        {| foods := Some (validatedFoods closure); timestamp := Some now |})].
Proof.
  intros Hdata. unfold clearCacheAndRevalidate.
  rewrite (proj2 (Nat.ltb_lt _ _) Hdata).
  destruct (validateImages_outputs isMobile world closure data now)
    as (tr & -> & _ & Hout & Hcache).
  csimpl. eexists. split; [done|]. unfold validatedOutputs, cacheWrites in *.
  csimpl. by rewrite Hout, Hcache.
Qed.

Example isSlow_examples :
  isSlow "2g" = true ∧ isSlow "slow-2g" = true ∧ isSlow "3g" = false ∧
  isSlow "" = false ∧ isSlow "x2g" = false.
Proof. by split_and!. Qed.

End OrderFacts.

(** ** The filters and the lookup of a category *)
Section FilterFacts.
Import Api ApiFilters.

Lemma filter_filter_andb {A} (p q : A → bool) (l : list A) :
  List.filter p (List.filter q l) = List.filter (λ x, q x && p x) l.
Proof.
  induction l as [|x l IH]; [done|]. simpl.
  destruct (q x); simpl; [destruct (p x)|]; by rewrite IH.
Qed.

Lemma filter_comm {A} (p q : A → bool) (l : list A) :
  List.filter p (List.filter q l) = List.filter q (List.filter p l).
Proof.
  rewrite !filter_filter_andb. apply filter_ext. intros x. apply andb_comm.
Qed.

Lemma filter_sublist {A} (p : A → bool) (l : list A) : List.filter p l `sublist_of` l.
Proof.
  induction l as [|x l IH]; [done|]. simpl.
  destruct (p x); [by apply sublist_skip|by apply sublist_cons].
Qed.

Lemma Qle_bool_max (a c x : Q) :
  Qle_bool (Qmax a c) x = Qle_bool a x && Qle_bool c x.
Proof.
  apply eq_true_iff_eq. rewrite andb_true_iff, !Qle_bool_iff. apply Q.max_lub_iff.
Qed.

Lemma Qle_bool_min (x b d : Q) :
  Qle_bool x (Qmin b d) = Qle_bool x b && Qle_bool x d.
Proof.
  apply eq_true_iff_eq. rewrite andb_true_iff, !Qle_bool_iff. apply Q.min_glb_iff.
Qed.

(** X2: [filterFoodsByPrice] keeps, in their order, exactly the items whose
    price lies between the two bounds, the bounds included; filtering twice
    is filtering once with the larger lower bound and the smaller upper
    bound. *)
Theorem filterFoodsByPrice_range (foods : list FoodItem) (a c : Q) (b d : option Q) :
  filterFoodsByPrice foods a b `sublist_of` foods ∧
  (∀ f, f ∈ filterFoodsByPrice foods a b ↔
        f ∈ foods ∧ (a <= price f)%Q ∧ from_option (λ m, (price f <= m)%Q) True b) ∧
  filterFoodsByPrice (filterFoodsByPrice foods a b) c d
  = filterFoodsByPrice foods (Qmax a c) (lowerCap b d).
Proof.
  split_and!.
  - apply filter_sublist.
  - intros f. unfold filterFoodsByPrice.
    rewrite list_elem_of_In, filter_In, <-list_elem_of_In, andb_true_iff, Qle_bool_iff.
    destruct b as [m|]; simpl; [rewrite Qle_bool_iff|]; tauto.
  - unfold filterFoodsByPrice. rewrite filter_filter_andb. apply filter_ext.
    intros f. rewrite Qle_bool_max.
    destruct b as [x|], d as [y|]; simpl; rewrite ?Qle_bool_min;
      repeat (destruct (Qle_bool _ _)); done.
Qed.

(** X3: the price filter, the rating filter and the search can be applied
    in any order with the same result, and the rating filter keeps exactly
    the items rated at least the minimum. *)
Theorem filters_commute (foods : list FoodItem) (a r : Q) (b : option Q) (query : string) :
  filterFoodsByRating (filterFoodsByPrice foods a b) r
  = filterFoodsByPrice (filterFoodsByRating foods r) a b ∧
  searchFoods query (Some (filterFoodsByPrice foods a b))
  = filterFoodsByPrice (searchFoods query (Some foods)) a b ∧
  searchFoods query (Some (filterFoodsByRating foods r))
  = filterFoodsByRating (searchFoods query (Some foods)) r ∧
  (∀ f, f ∈ filterFoodsByRating foods r ↔ f ∈ foods ∧ (r <= rate f)%Q).
Proof.
  unfold filterFoodsByRating, filterFoodsByPrice, searchFoods. split_and!.
  - apply filter_comm.
  - destruct (truthy query); simpl; [apply filter_comm|done].
  - destruct (truthy query); simpl; [apply filter_comm|done].
  - intros f. by rewrite list_elem_of_In, filter_In, <-list_elem_of_In, Qle_bool_iff.
Qed.

Lemma upper_lower_ascii (c : ascii) : upper_ascii (lower_ascii c) = upper_ascii c.
Proof. by destruct c as [[] [] [] [] [] [] [] []]. Qed.

Lemma upper_ascii_idemp (c : ascii) : upper_ascii (upper_ascii c) = upper_ascii c.
Proof. by destruct c as [[] [] [] [] [] [] [] []]. Qed.

Lemma toUpperCase_toLowerCase (s : string) : toUpperCase (toLowerCase s) = toUpperCase s.
Proof. induction s as [|c s IH]; simpl; [done|]. by rewrite upper_lower_ascii, IH. Qed.

Lemma toUpperCase_idemp (s : string) : toUpperCase (toUpperCase s) = toUpperCase s.
Proof. induction s as [|c s IH]; simpl; [done|]. by rewrite upper_ascii_idemp, IH. Qed.

(** X4: [getFoodsByCategory] looks the category up without regard to the
    case of its letters: two names that agree up to case lead to the same
    request and the same delivered body or the same failure, and a name is
    rejected as invalid for both or for neither.  A name that is, up to
    case, a category of the aggregator is fetched from the path made of a
    slash and that category. *)
Theorem getFoodsByCategory_ignores_case (get : string → Settled) (c c' : string) :
  toUpperCase c = toUpperCase c' →
  (∀ body, getFoodsByCategory get c = inr body ↔ getFoodsByCategory get c' = inr body) ∧
  (∀ reason, getFoodsByCategory get c = inl (RequestFailed reason) ↔
             getFoodsByCategory get c' = inl (RequestFailed reason)) ∧
  (getFoodsByCategory get c = inl (InvalidCategory c) ↔
   getFoodsByCategory get c' = inl (InvalidCategory c')) ∧
  (c' ∈ categories →
   getFoodsByCategory get c
   = match get ("/" +:+ c') with
     | Fulfilled response => inr (Api.data response)
     | Rejected reason => inl (RequestFailed reason)
     end).
Proof.
  intros Hcase. unfold getFoodsByCategory. rewrite Hcase.
  split_and!.
  - intros body. destruct (endpointOf _) as [e|]; [|done].
    destruct (truthy e); [|done]. by destruct (get e).
  - intros reason. destruct (endpointOf _) as [e|]; [|done].
    destruct (truthy e); [|done]. by destruct (get e).
  - destruct (endpointOf _) as [e|]; [|done].
    destruct (truthy e); [|done]. by destruct (get e).
  - intros Hcat. unfold categories in Hcat.
    repeat (apply elem_of_cons in Hcat as [->|Hcat]; [reflexivity|]).
    by apply elem_of_nil in Hcat.
Qed.

(** "Burgers" and "BURGERS" are the same category; the body the network
    delivers for /burgers is what both calls return. *)
Lemma getFoodsByCategory_ignores_case_witness :
  let get := λ path : string,
    if bool_decide (path = "/burgers") then Examples.ok [Examples.food "5" "Cheeseburger"]
    else Examples.failed in
  getFoodsByCategory get "Burgers" = inr (BodyArray [Examples.food "5" "Cheeseburger"]) ∧
  getFoodsByCategory get "ice-cream" = inl (InvalidCategory "ice-cream").
Proof.
  intros get. split; [|reflexivity].
  rewrite (proj2 (proj2 (proj2
    (getFoodsByCategory_ignores_case get "Burgers" "burgers" eq_refl)))); [reflexivity|].
  by left.
Defined.

End FilterFacts.

(** ** Search and pagination of the menu *)
Section MenuHookFacts.
Import Api MenuData MenuHooks.

Lemma toLowerCase_empty (s : string) : toLowerCase s = "" ↔ s = "".
Proof. by destruct s. Qed.

Lemma includes_empty (s : string) : includes s "" = true.
Proof. by destruct s. Qed.

Lemma truthy_false (s : string) : truthy s = false ↔ s = "".
Proof. by destruct s. Qed.

(** X5: [useMenuSearch] yields no results for a query that is blank, and
    for any other query the items whose name or description contains the
    lower-cased, trimmed query, which is then never empty; [searchFoods]
    itself, given a query of blanks only, returns the whole list. *)
Theorem useMenuSearch_results (searchQuery : string) (foods : list FoodItem) :
  let searchTerm := trim (toLowerCase searchQuery) in
  (trim searchQuery = "" → useMenuSearch searchQuery foods = []) ∧
  (trim searchQuery ≠ "" →
     searchTerm ≠ "" ∧
     useMenuSearch searchQuery foods = searchFoods searchQuery (Some foods)) ∧
  (∀ f, f ∈ useMenuSearch searchQuery foods ↔
        trim searchQuery ≠ "" ∧ f ∈ foods ∧
        (substring_ci searchTerm (name f) ∨ substring_ci searchTerm (dsc f))) ∧
  (trim searchQuery = "" → searchQuery ≠ "" →
     searchFoods searchQuery (Some foods) = foods).
Proof.
  intros searchTerm. unfold useMenuSearch.
  assert (searchTerm = "" ↔ trim searchQuery = "") as Hterm.
  { unfold searchTerm. by rewrite <-toLowerCase_trim, toLowerCase_empty. }
  split_and!.
  - by intros ->.
  - intros Hq. split; [by rewrite Hterm|].
    by destruct (trim searchQuery).
  - intros f. destruct (truthy (trim searchQuery)) eqn:Ht; simpl.
    + assert (trim searchQuery ≠ "") as Hq by (by intros Hq; rewrite Hq in Ht).
      assert (truthy searchQuery = true) as Hq' by (by destruct searchQuery).
      unfold searchFoods. rewrite Hq'. simpl. fold searchTerm.
      rewrite list_elem_of_In, filter_In, <-list_elem_of_In. unfold searchTerm.
      rewrite matches_spec. tauto.
    + apply truthy_false in Ht. rewrite Ht. split; [by intros ?%elem_of_nil|by intros [? _]].
  - intros Hblank Hq. unfold searchFoods.
    assert (truthy searchQuery = true) as -> by (by destruct searchQuery).
    simpl. fold searchTerm. rewrite (proj2 Hterm Hblank).
    induction foods as [|f foods IH]; [done|]. simpl.
    unfold matches at 1. by rewrite includes_empty, IH.
Qed.

(** A query of three blanks: no results from the hook, everything from
    [searchFoods]; the query " Burger " finds the cheeseburger. *)
Lemma useMenuSearch_results_witness :
  let foods := [Examples.food "1" "Cheeseburger"; Examples.food "2" "Pizza"] in
  useMenuSearch "   " foods = [] ∧
  searchFoods "   " (Some foods) = foods ∧
  useMenuSearch " Burger " foods = searchFoods " Burger " (Some foods).
Proof.
  intros foods.
  destruct (useMenuSearch_results "   " foods) as (Hblank & _ & _ & Hall).
  destruct (useMenuSearch_results " Burger " foods) as (_ & Hsome & _).
  split_and!.
  - by apply Hblank.
  - by apply Hall.
  - by apply Hsome.
Defined.

(** *** Pagination *)

Lemma totalPages_bounds (len : nat) (p : Paging) :
  0 < itemsPerPageState p →
  len ≤ totalPages len p * itemsPerPageState p ∧
  (0 < len → 1 ≤ totalPages len p ∧ (totalPages len p - 1) * itemsPerPageState p < len) ∧
  (len = 0 → totalPages len p = 0).
Proof.
  intros Hper. unfold totalPages. set (per := itemsPerPageState p) in *.
  pose proof (Nat.div_mod_eq (len + per - 1) per) as Hdiv.
  pose proof (Nat.mod_upper_bound (len + per - 1) per ltac:(lia)) as Hmod.
  set (q := (len + per - 1) / per) in *. set (r := (len + per - 1) mod per) in *.
  split_and!; [nia|intros ?; split; nia|intros ->; nia].
Qed.

Lemma pages_concat {A} (per : nat) (l : list A) (n m : nat) :
  concat ((λ k, slice ((k - 1) * per) ((k - 1) * per + per) l) <$> seq (S m) n)
  = take (n * per) (drop (m * per) l).
Proof.
  revert m. induction n as [|n IH]; intros m; [done|].
  rewrite <-cons_seq, fmap_cons, concat_cons, IH. unfold slice.
  replace (S m - 1) with m by lia.
  replace (m * per + per - m * per) with per by lia.
  replace (S m * per) with (m * per + per) by lia.
  rewrite <-drop_drop, take_take_drop. f_equal.
Qed.

(** X6: with a positive number of items per page, the pages 1 to
    [totalPages] shown one after the other are the whole list: every item
    is on exactly one page, in the order of the list. *)
Theorem pages_cover_list (foods : list FoodItem) (perPage : nat) :
  0 < perPage →
  let page k := {| currentPage := k; itemsPerPageState := perPage |} in
  concat ((λ k, currentFoods foods (page k))
          <$> seq 1 (totalPages (length foods) (page 1)))
  = foods.
Proof.
  intros Hper page. unfold currentFoods, startIndex, endIndex. simpl.
  rewrite (pages_concat perPage foods _ 0). simpl. rewrite drop_0.
  apply take_ge.
  by destruct (totalPages_bounds (length foods) (page 1) Hper) as [? _].
Qed.

(** Five dishes, two per page: three pages, of two, two and one dish. *)
Lemma pages_cover_list_witness :
  let foods := take 5 Examples.catalog100 in
  (λ k, length (currentFoods foods {| currentPage := k; itemsPerPageState := 2 |}))
    <$> seq 1 (totalPages 5 {| currentPage := 1; itemsPerPageState := 2 |})
  = [2; 2; 1] ∧
  concat ((λ k, currentFoods foods {| currentPage := k; itemsPerPageState := 2 |})
          <$> seq 1 (totalPages 5 {| currentPage := 1; itemsPerPageState := 2 |}))
  = foods.
Proof.
  intros foods. split; [reflexivity|].
  apply (pages_cover_list foods 2). lia.
Defined.

(** X7: with a positive number of items per page, [goToPage] never leaves
    the range of pages: the page it sets is at least 1 and, unless the list
    is empty, at most [totalPages]; a page of the range is set as asked; on
    an empty list the page is 1 although there are 0 pages.  So going to
    the next page from the last one, or to the previous page from the first
    one, changes nothing. *)
Theorem goToPage_in_range (len : nat) (page : Z) (p : Paging) :
  0 < itemsPerPageState p →
  let p' := goToPage len page p in
  itemsPerPageState p' = itemsPerPageState p ∧
  1 ≤ currentPage p' ∧
  (0 < len → currentPage p' ≤ totalPages len p) ∧
  (len = 0 → currentPage p' = 1 ∧ totalPages len p = 0) ∧
  ((1 ≤ page ≤ Z.of_nat (totalPages len p))%Z → Z.of_nat (currentPage p') = page) ∧
  (0 < len → currentPage p = totalPages len p → goToNextPage len p = p) ∧
  (currentPage p = 1 → goToPreviousPage len p = p).
Proof.
  intros Hper p'.
  destruct (totalPages_bounds len p Hper) as (_ & Hpos & Hzero).
  unfold goToNextPage, goToPreviousPage, goToPage in *. subst p'. simpl.
  split_and!; try lia.
  - intros Hlen Hlast. destruct p as [k per]. simpl in *. f_equal. lia.
  - intros Hfirst. destruct p as [k per]. simpl in *. f_equal. lia.
Qed.

(** 45 dishes, 12 per page: asking for page 9 leads to page 4, asking for
    page -3 to page 1. *)
Lemma goToPage_in_range_witness :
  let p := {| currentPage := 2; itemsPerPageState := 12 |} in
  totalPages 45 p = 4 ∧
  currentPage (goToPage 45 9 p) = 4 ∧ currentPage (goToPage 45 (-3) p) = 1 ∧
  1 ≤ currentPage (goToPage 45 9 p) ≤ totalPages 45 p.
Proof.
  intros p.
  destruct (goToPage_in_range 45 9 p ltac:(simpl; lia)) as (_ & Hlow & Hhigh & _).
  split_and!; [reflexivity|reflexivity|reflexivity|exact Hlow|apply Hhigh; lia].
Defined.

(** X8: on a page of the range, with a positive number of items per page,
    the hook shows the items at the positions from [startIndex] on, at
    least one and at most a page full; every page but the last is full; the
    range it reports, from [startIndex + 1] to [min(endIndex, length)],
    counts exactly the items shown; and [hasNextPage] holds exactly when
    items remain after the page. *)
Theorem currentFoods_page (foods : list FoodItem) (p : Paging) :
  0 < itemsPerPageState p →
  1 ≤ currentPage p ≤ totalPages (length foods) p →
  let shownItems := currentFoods foods p in
  (∀ j, j < itemsPerPageState p → shownItems !! j = foods !! (startIndex p + j)) ∧
  1 ≤ length shownItems ≤ itemsPerPageState p ∧
  (currentPage p < totalPages (length foods) p →
     length shownItems = itemsPerPageState p) ∧
  shownEndIndex (length foods) p + 1 = shownStartIndex p + length shownItems ∧
  (hasNextPage (length foods) p = true ↔ shownEndIndex (length foods) p < length foods).
Proof.
  intros Hper Hpage shownItems.
  destruct (totalPages_bounds (length foods) p Hper) as (Hle & Hpos & Hzero).
  assert (0 < length foods) as Hlen.
  { destruct (length foods); [|lia]. rewrite (Hzero eq_refl) in Hpage. lia. }
  destruct (Hpos Hlen) as [_ Hlast].
  assert (length shownItems
          = Nat.min (itemsPerPageState p) (length foods - startIndex p)) as Hshown.
  { unfold shownItems, currentFoods, slice, endIndex.
    rewrite length_take, length_drop. lia. }
  unfold shownEndIndex, shownStartIndex, hasNextPage, endIndex, startIndex in *.
  set (per := itemsPerPageState p) in *. set (k := currentPage p) in *.
  set (T := totalPages (length foods) p) in *.
  assert ((k - 1) * per < length foods) as Hstart by nia.
  split_and!.
  - intros j Hj. unfold shownItems, currentFoods, slice, endIndex, startIndex.
    fold per k. replace ((k - 1) * per + per - (k - 1) * per) with per by lia.
    by rewrite lookup_take_lt, lookup_drop.
  - lia.
  - lia.
  - intros Hk. assert ((k - 1) * per + per ≤ (T - 1) * per) by nia. lia.
  - lia.
  - rewrite Nat.ltb_lt. split.
    + intros Hk. assert ((k - 1) * per + per ≤ (T - 1) * per) by nia. lia.
    + intros Hend. destruct (Nat.lt_ge_cases k T) as [|Hge]; [done|].
      assert (k = T) by lia. subst k. nia.
Qed.

(** 45 dishes, 12 per page, page 4: the nine dishes 37 to 45, and no next
    page. *)
Lemma currentFoods_page_witness :
  let foods := take 45 Examples.catalog100 in
  let p := {| currentPage := 4; itemsPerPageState := 12 |} in
  length (currentFoods foods p) = 9 ∧
  shownStartIndex p = 37 ∧ shownEndIndex (length foods) p = 45 ∧
  hasNextPage (length foods) p = false.
Proof.
  intros foods p.
  assert (1 ≤ currentPage p ≤ totalPages (length foods) p) as Hpage
    by (change (1 ≤ 4 ≤ 4); lia).
  destruct (currentFoods_page foods p ltac:(simpl; lia) Hpage)
    as (_ & _ & _ & Hrange & Hnext).
  split_and!; [|reflexivity|reflexivity|reflexivity].
  change (shownEndIndex (length foods) p) with 45 in Hrange.
  change (shownStartIndex p) with 37 in Hrange. lia.
Defined.

End MenuHookFacts.

(** ** The two caches and the best foods *)
Section BestFoodsFacts.
Import Api ImageValidation MenuData PassSpec MenuHooks.

Lemma keys_differ : VALIDATION_KEY ≠ BEST_FOODS_KEY.
Proof. done. Qed.

Lemma initValidatedFoods_other (key other : string) (now : Z) (ls : Storage) :
  other ≠ key → (initValidatedFoods key now ls).2 !! other = ls !! other.
Proof.
  intros Hne. unfold initValidatedFoods.
  destruct (ls !! key) as [[raw|c]|]; [| |done].
  - destruct (truthy raw); simpl; [by rewrite lookup_delete_ne|done].
  - destruct (foods c) as [fs|], (isExpired now c); simpl;
      try destruct (0 <? length fs); simpl; by rewrite ?lookup_delete_ne.
Qed.

(** The state and the store after the effects of a best-foods pass. *)
Lemma validateBestFoodsImages_final (world : string → ImageOutcome) (st : BestState)
    (ls : Storage) (foods : list FoodItem) (now : Z) :
  ∃ tr, validateBestFoodsImages world foods now = Some tr ∧
    applyBestEffects (st, ls) tr
    = ({| validatedBestFoods := List.filter (isValid 2000 world) foods;
          bestIsValidating := false; bestHasValidated := bestHasValidated st |},
       <[BEST_FOODS_KEY :=
           Json {| foods := Some (List.filter (isValid 2000 world) foods);
                   timestamp := Some now |}]> ls).
Proof.
  unfold validateBestFoodsImages.
  assert (mapM (probeBestFood world) foods
          = Some ((λ f, if isValid 2000 world f then Some f else None) <$> foods)) as ->.
  { apply mapM_Some_2, Forall2_fmap_r, Forall_Forall2_diag, Forall_true.
    intros food. apply probeBestFood_resolves. }
  csimpl. rewrite omap_filter_valid. eexists. split; [done|].
  unfold applyBestEffects. rewrite foldl_app.
  assert (foldl applyBestEffect (st, ls) (CheckImageUrl ∘ img <$> foods) = (st, ls)) as ->.
  { induction foods as [|f foods IH]; [done|]. by csimpl. }
  by destruct st.
Qed.

(** X9: what a best-foods pass caches it gets back.  After a pass in which
    at least one image loaded, a page load at most 24 hours later starts
    with exactly the items whose probe succeeded, marked as validated, and
    shows them before any answer of the network; a page load later than
    that starts empty and purges the record. *)
Theorem best_foods_cache_round_trip (world : string → ImageOutcome) (st : BestState)
    (ls : Storage) (foods : list FoodItem) (now now' : Z) :
  List.filter (isValid 2000 world) foods ≠ [] →
  ∃ tr, validateBestFoodsImages world foods now = Some tr ∧
    let stored := (applyBestEffects (st, ls) tr).2 in
    ((now' - now ≤ DAY_MS)%Z →
       initBestState now' stored
       = ({| validatedBestFoods := List.filter (isValid 2000 world) foods;
             bestIsValidating := false; bestHasValidated := true |}, stored) ∧
       bestData (initBestState now' stored).1 None
       = List.filter (isValid 2000 world) foods) ∧
    ((now' - now > DAY_MS)%Z →
       initBestState now' stored
       = ({| validatedBestFoods := []; bestIsValidating := false;
             bestHasValidated := false |}, delete BEST_FOODS_KEY stored)).
Proof.
  intros Hvalid.
  destruct (validateBestFoodsImages_final world st ls foods now) as (tr & Htr & Hfinal).
  exists tr. split; [done|]. rewrite Hfinal. simpl.
  set (valid := List.filter (isValid 2000 world) foods) in *.
  set (stored := <[BEST_FOODS_KEY:=_]> ls).
  assert (stored !! BEST_FOODS_KEY
          = Some (Json {| foods := Some valid; timestamp := Some now |})) as Hstored
    by apply lookup_insert_eq.
  split.
  - intros Hfresh. unfold initBestState.
    rewrite (initValidatedFoods_fresh _ _ _ _ _ Hstored Hfresh).
    unfold initHasValidated. rewrite Hstored.
    assert (isExpired now' {| foods := Some valid; timestamp := Some now |} = false) as ->.
    { apply not_true_iff_false. rewrite isExpired_spec. lia. }
    split; [done|]. unfold bestData. simpl. by destruct valid.
  - intros Hold. unfold initBestState.
    rewrite (initValidatedFoods_expired _ _ _ _ _ Hstored Hold).
    unfold initHasValidated. by rewrite lookup_delete_eq.
Qed.

(** One of two best foods has an image that loads: it is what the next page
    load, an hour later, starts with. *)
Lemma best_foods_cache_round_trip_witness :
  let foods := [Examples.food "1" "Cheeseburger"; Examples.food "3" "Onion rings"] in
  ∃ tr, validateBestFoodsImages Examples.world foods 1000 = Some tr ∧
    (initBestState 3601000
       (applyBestEffects (mkBestState [] true true, ∅) tr).2).1
    = mkBestState [Examples.food "1" "Cheeseburger"] false true.
Proof.
  intros foods.
  destruct (best_foods_cache_round_trip Examples.world (mkBestState [] true true) ∅
              foods 1000 3601000 ltac:(by vm_compute)) as (tr & Htr & Hfresh & _).
  exists tr. split; [done|].
  destruct Hfresh as [-> _]; [unfold DAY_MS; lia|]. reflexivity.
Defined.

(** X10: when not a single image of the best foods loads, the hook falls
    back to the list as fetched and shows every item, and a page load
    within the next 24 hours starts with nothing validated but marked as
    validated, so that no pass is started again; when some image loads it
    shows exactly the items whose image loaded. *)
Theorem best_foods_fallback (world : string → ImageOutcome) (st : BestState)
    (ls : Storage) (foods : list FoodItem) (now : Z) :
  ∃ tr, validateBestFoodsImages world foods now = Some tr ∧
    let after := applyBestEffects (st, ls) tr in
    (List.filter (isValid 2000 world) foods ≠ [] →
       bestData after.1 (Some foods) = List.filter (isValid 2000 world) foods) ∧
    (List.filter (isValid 2000 world) foods = [] →
       bestData after.1 (Some foods) = foods ∧
       ∀ now' world' data',
         (now' - now ≤ DAY_MS)%Z →
         let reloaded := (initBestState now' after.2).1 in
         validatedBestFoods reloaded = [] ∧ bestHasValidated reloaded = true ∧
         bestValidationEffect world' reloaded data' now' = Some [] ∧
         bestData reloaded data' = default [] data').
Proof.
  destruct (validateBestFoodsImages_final world st ls foods now) as (tr & Htr & Hfinal).
  exists tr. split; [done|]. rewrite Hfinal. simpl. unfold bestData. simpl.
  split.
  - intros Hvalid. by destruct (List.filter _ foods).
  - intros Hnone. rewrite Hnone. split; [done|].
    intros now' world' data' Hfresh.
    set (stored := <[BEST_FOODS_KEY:=_]> ls).
    assert (stored !! BEST_FOODS_KEY
            = Some (Json {| foods := Some []; timestamp := Some now |})) as Hstored
      by apply lookup_insert_eq.
    unfold initBestState.
    rewrite (initValidatedFoods_fresh _ _ _ _ _ Hstored Hfresh). simpl.
    unfold initHasValidated. rewrite Hstored.
    assert (isExpired now' {| foods := Some []; timestamp := Some now |} = false) as ->.
    { apply not_true_iff_false. rewrite isExpired_spec. lia. }
    split_and!; try done.
    unfold bestValidationEffect. simpl. destruct data' as [d|]; [|done].
    by rewrite andb_false_r.
Qed.

(** The one best food has an image that fails: it is shown all the same. *)
Lemma best_foods_fallback_witness :
  let foods := [Examples.food "3" "Onion rings"] in
  ∃ tr, validateBestFoodsImages Examples.world foods 1000 = Some tr ∧
    bestData (applyBestEffects (mkBestState [] true true, ∅) tr).1 (Some foods) = foods.
Proof.
  intros foods.
  destruct (best_foods_fallback Examples.world (mkBestState [] true true) ∅ foods 1000)
    as (tr & Htr & _ & Hnone).
  exists tr. split; [done|]. by apply Hnone.
Defined.

End BestFoodsFacts.

(** ** The hook across effects and page loads *)
Section HookFacts.
Import Api ImageValidation MenuData PassSpec MenuHooks.

(** *** The regular expression of the slow connection *)

Lemma rev_app_app_l (a b c : string) :
  String.rev_app (a +:+ b) c = String.rev_app b (String.rev_app a c).
Proof.
  revert c. induction a as [|x a IH]; intros c; [done|].
  rewrite string_app_cons. simpl. apply IH.
Qed.

Lemma rev_app_app_r (a b c : string) :
  String.rev_app a (b +:+ c) = String.rev_app a b +:+ c.
Proof.
  revert b. induction a as [|x a IH]; intros b; [done|].
  simpl. by rewrite <-IH, string_app_cons.
Qed.

Lemma rev_app_distr (a b : string) : String.rev (a +:+ b) = String.rev b +:+ String.rev a.
Proof.
  unfold String.rev. rewrite rev_app_app_l.
  by rewrite <-(string_app_nil_l (String.rev_app a "")), rev_app_app_r.
Qed.

Lemma rev_app_rev_app (a b c : string) :
  String.rev_app (String.rev_app a b) c = String.rev_app b (a +:+ c).
Proof.
  revert b c. induction a as [|x a IH]; intros b c; [done|].
  simpl. rewrite IH. simpl. by rewrite string_app_cons.
Qed.

Lemma rev_involutive (s : string) : String.rev (String.rev s) = s.
Proof.
  unfold String.rev. rewrite rev_app_rev_app. simpl.
  induction s as [|x s IH]; [done|]. by rewrite string_app_cons, IH.
Qed.

(** [isSlow] holds of "2g" and of the names that end in "-2g". *)
Lemma isSlow_spec (effectiveType : string) :
  isSlow effectiveType = true ↔
  effectiveType = "2g" ∨ ∃ before, effectiveType = before +:+ "-2g".
Proof.
  unfold isSlow. rewrite orb_true_iff, bool_decide_eq_true, prefix_spec.
  split; (intros [H|[s Hs]]; [by left|right]).
  - exists (String.rev s). rewrite <-(rev_involutive effectiveType), Hs.
    by rewrite rev_app_distr.
  - exists (String.rev s). by rewrite Hs, rev_app_distr.
Qed.

(** *** Final states *)

Lemma clearCacheAndRevalidate_final (isMobile : bool) (world : string → ImageOutcome)
    (closure st : State) (ls : Storage) (data : list FoodItem) (now : Z) :
  0 < length data →
  ∃ tr, clearCacheAndRevalidate isMobile world closure (Some data) now = Some tr ∧
    applyEffects (st, ls) tr
    = ({| validatedFoods := validFirstOrder isMobile world data;
          isValidating := false; validationProgress := 100; hasValidated := false |},
       <[VALIDATION_KEY :=
           Json {| foods := Some (validatedFoods closure); timestamp := Some now |}]>
         (delete VALIDATION_KEY ls)).
Proof.
  intros Hdata. unfold clearCacheAndRevalidate.
  rewrite (proj2 (Nat.ltb_lt _ _) Hdata).
  edestruct (validateImages_final isMobile world closure) as (tr & -> & Hfinal).
  csimpl. eexists. split; [done|]. unfold applyEffects in *. simpl.
  rewrite Hfinal. done.
Qed.

Lemma validationEffect_final (isMobile : bool) (world : string → ImageOutcome)
    (st : State) (ls : Storage) (data : list FoodItem) (connection : option Connection)
    (now : Z) :
  validatedFoods st = [] → hasValidated st = false → 0 < length data →
  isMobile && (from_option saveData false connection
               || isSlow (from_option effectiveType "" connection)) = false →
  ∃ tr, validationEffect isMobile world st (Some data) connection now = Some tr ∧
    applyEffects (st, ls) tr
    = ({| validatedFoods := validFirstOrder isMobile world data;
          isValidating := false; validationProgress := 100; hasValidated := true |},
       <[VALIDATION_KEY := Json {| foods := Some []; timestamp := Some now |}]> ls).
Proof.
  intros Hempty Hnot Hdata Hfree. unfold validationEffect.
  rewrite (proj2 (Nat.ltb_lt _ _) Hdata), Hnot, Hempty, Hfree. simpl.
  edestruct (validateImages_final isMobile world st) as (tr & -> & Hfinal).
  csimpl. eexists. split; [done|]. unfold applyEffects in *. simpl.
  rewrite Hfinal, Hempty. done.
Qed.

(** X11: the two caches do not invalidate each other.  A validation pass of
    the main catalog, a manual refresh of it and the page load of its hook
    leave the record of the best foods as it is, and a pass over the best
    foods and the page load of their hook leave the record of the main
    catalog as it is. *)
Theorem caches_do_not_interfere (isMobile : bool) (world : string → ImageOutcome)
    (closure st : State) (best : BestState) (ls : Storage) (foods : list FoodItem)
    (now : Z) :
  (∃ tr, validateImages isMobile world closure foods now = Some tr ∧
         (applyEffects (st, ls) tr).2 !! BEST_FOODS_KEY = ls !! BEST_FOODS_KEY) ∧
  (∃ tr, clearCacheAndRevalidate isMobile world closure (Some foods) now = Some tr ∧
         (applyEffects (st, ls) tr).2 !! BEST_FOODS_KEY = ls !! BEST_FOODS_KEY) ∧
  (∃ tr, validateBestFoodsImages world foods now = Some tr ∧
         (applyBestEffects (best, ls) tr).2 !! VALIDATION_KEY = ls !! VALIDATION_KEY) ∧
  (initState now ls).2 !! BEST_FOODS_KEY = ls !! BEST_FOODS_KEY ∧
  (initBestState now ls).2 !! VALIDATION_KEY = ls !! VALIDATION_KEY.
Proof.
  split_and!.
  - destruct (validateImages_final isMobile world closure st ls foods now)
      as (tr & Htr & Hfinal).
    exists tr. split; [done|]. rewrite Hfinal. simpl. by rewrite lookup_insert_ne.
  - destruct foods as [|f foods].
    + eexists. split; [reflexivity|]. simpl. by rewrite lookup_delete_ne.
    + destruct (clearCacheAndRevalidate_final isMobile world closure st ls (f :: foods) now)
        as (tr & Htr & Hfinal); [simpl; lia|].
      exists tr. split; [done|]. rewrite Hfinal. simpl.
      by rewrite lookup_insert_ne, lookup_delete_ne.
  - destruct (validateBestFoodsImages_final world best ls foods now)
      as (tr & Htr & Hfinal).
    exists tr. split; [done|]. rewrite Hfinal. simpl. by rewrite lookup_insert_ne.
  - unfold initState.
    pose proof (initValidatedFoods_other VALIDATION_KEY BEST_FOODS_KEY now ls) as H.
    destruct (initValidatedFoods VALIDATION_KEY now ls). by apply H.
  - unfold initBestState.
    pose proof (initValidatedFoods_other BEST_FOODS_KEY VALIDATION_KEY now ls) as H.
    destruct (initValidatedFoods BEST_FOODS_KEY now ls). by apply H.
Qed.

(** X12: the first validation pass switches validation off for a day.  When
    the effect runs a pass for a freshly fetched catalog, the record it
    leaves holds an empty list; a page load within the next 24 hours finds
    that record, starts with no validated foods but marked as validated,
    fetches again, and never starts a pass, whatever is fetched: the page
    then shows the fetched list in the order of the fetch. *)
Theorem first_pass_switches_validation_off (isMobile : bool)
    (world : string → ImageOutcome) (st : State) (ls : Storage) (data : list FoodItem)
    (connection : option Connection) (now now' : Z) :
  validatedFoods st = [] → hasValidated st = false → 0 < length data →
  isMobile && (from_option saveData false connection
               || isSlow (from_option effectiveType "" connection)) = false →
  (now' - now ≤ DAY_MS)%Z →
  ∃ tr, validationEffect isMobile world st (Some data) connection now = Some tr ∧
    let after := applyEffects (st, ls) tr in
    validatedFoods after.1 = validFirstOrder isMobile world data ∧
    let reloaded := initState now' after.2 in
    reloaded.2 = after.2 ∧
    validatedFoods reloaded.1 = [] ∧ hasValidated reloaded.1 = true ∧
    queryEnabled reloaded.1 = true ∧
    ∀ isMobile' world' data' connection' now'',
      validationEffect isMobile' world' reloaded.1 data' connection' now'' = Some [] ∧
      MenuData.data (useAllFoodsWithValidation reloaded.1 data') = deduped (default [] data').
Proof.
  intros Hempty Hnot Hdata Hfree Hfresh.
  destruct (validationEffect_final isMobile world st ls data connection now
              Hempty Hnot Hdata Hfree) as (tr & Htr & Hfinal).
  exists tr. split; [done|]. rewrite Hfinal. simpl.
  set (stored := <[VALIDATION_KEY:=_]> ls).
  assert (stored !! VALIDATION_KEY
          = Some (Json {| foods := Some []; timestamp := Some now |})) as Hstored
    by apply lookup_insert_eq.
  unfold initState.
  rewrite (initValidatedFoods_fresh _ _ _ _ _ Hstored Hfresh). simpl.
  unfold initHasValidated. rewrite Hstored.
  assert (isExpired now' {| foods := Some []; timestamp := Some now |} = false) as ->.
  { apply not_true_iff_false. rewrite isExpired_spec. lia. }
  split_and!; try done.
  intros isMobile' world' data' connection' now''. split; [|done].
  unfold validationEffect. simpl. destruct data' as [d|]; [|done].
  by rewrite andb_false_r.
Qed.

(** A desktop, one dish fetched at 1000, the page loaded again an hour
    later: nothing validated, marked validated, and no pass for the dishes
    fetched then. *)
Lemma first_pass_switches_validation_off_witness :
  ∃ tr, validationEffect false Examples.world Examples.fresh
          (Some [Examples.food "1" "Cheeseburger"]) None 1000 = Some tr ∧
    let reloaded := (initState 3601000 (applyEffects (Examples.fresh, ∅) tr).2).1 in
    hasValidated reloaded = true ∧ validatedFoods reloaded = [] ∧
    validationEffect false Examples.world reloaded (Some Examples.catalog100) None 3602000
    = Some [].
Proof.
  destruct (first_pass_switches_validation_off false Examples.world Examples.fresh ∅
              [Examples.food "1" "Cheeseburger"] None 1000 3601000
              eq_refl eq_refl ltac:(simpl; lia) eq_refl ltac:(unfold DAY_MS; lia))
    as (tr & Htr & _ & _ & Hvalidated & Hmarked & _ & Hnever).
  exists tr. split; [done|]. split_and!; [done|done|].
  apply (Hnever false Examples.world (Some Examples.catalog100) None 3602000%Z).
Defined.

(** X13: on a mobile device whose connection saves data or is of the 2g
    kind (its effective type is "2g" or ends in "-2g"), the validation
    effect probes no image and writes no cache record; it only marks the
    catalog as validated, and the page shows the fetched list as it is. *)
Theorem constrained_mobile_skips_validation (world : string → ImageOutcome) (st : State)
    (ls : Storage) (data : list FoodItem) (connection : Connection) (now : Z) :
  validatedFoods st = [] → hasValidated st = false → 0 < length data →
  saveData connection = true ∨ effectiveType connection = "2g" ∨
    (∃ before, effectiveType connection = before +:+ "-2g") →
  ∃ tr, validationEffect true world st (Some data) (Some connection) now = Some tr ∧
    probedUrls tr = [] ∧ cacheWrites tr = [] ∧ validatedOutputs tr = [] ∧
    let after := applyEffects (st, ls) tr in
    after.2 = ls ∧ hasValidated after.1 = true ∧ isValidating after.1 = false ∧
    validatedFoods after.1 = [] ∧
    MenuData.data (useAllFoodsWithValidation after.1 (Some data)) = deduped data.
Proof.
  intros Hempty Hnot Hdata Hconn. unfold validationEffect.
  rewrite (proj2 (Nat.ltb_lt _ _) Hdata), Hnot, Hempty. simpl.
  assert (saveData connection || isSlow (effectiveType connection) = true) as ->.
  { apply orb_true_iff. destruct Hconn as [?|Hslow]; [by left|right].
    by apply isSlow_spec. }
  eexists. split; [done|]. simpl. by rewrite Hempty.
Qed.

(** A phone on a slow-2g connection, offered the 100 dishes: no probe. *)
Lemma constrained_mobile_skips_validation_witness :
  ∃ tr, validationEffect true Examples.world60 Examples.fresh (Some Examples.catalog100)
          (Some MoreExamples.constrained) 1000 = Some tr ∧
    probedUrls tr = [] ∧ cacheWrites tr = [].
Proof.
  destruct (constrained_mobile_skips_validation Examples.world60 Examples.fresh ∅
              Examples.catalog100 MoreExamples.constrained 1000
              eq_refl eq_refl ltac:(vm_compute; lia)
              ltac:(right; right; by exists "slow"))
    as (tr & Htr & Hprobes & Hcache & _).
  by exists tr.
Defined.

Lemma loop_effects_keep_mark (loop : list Effect) (b : bool) :
  forallb isLoopEffect loop = true → SetHasValidated b ∉ loop.
Proof.
  intros Hloop Hin. apply list_elem_of_In in Hin.
  by apply (proj1 (forallb_forall _ _) Hloop) in Hin.
Qed.

Lemma applyEffect_mark (s : State * Storage) (e : Effect) :
  e ≠ SetHasValidated false →
  hasValidated s.1 = true ∨ e = SetHasValidated true →
  hasValidated (applyEffect s e).1 = true.
Proof.
  destruct s as [st ls]. intros Hne [Hst | ->]; [|done].
  destruct e as [| | | |b| | | |]; simpl in *; try done.
  destruct b; [done|by destruct Hne].
Qed.

(** However the calls of two running functions interleave, the catalog
    ends marked as validated when one of them sets the mark and none
    clears it. *)
Lemma interleaving_mark (a b m : list Effect) (s : State * Storage) :
  Interleaving a b m →
  SetHasValidated false ∉ a → SetHasValidated false ∉ b →
  hasValidated s.1 = true ∨ SetHasValidated true ∈ a ∨ SetHasValidated true ∈ b →
  hasValidated (applyEffects s m).1 = true.
Proof.
  intros Hm. revert s.
  induction Hm as [|x a b m _ IH|x a b m _ IH]; intros s Ha Hb Hset.
  - destruct Hset as [?|[Hin|Hin]]; [done|by apply elem_of_nil in Hin..].
  - unfold applyEffects. cbn [foldl]. apply IH.
    + intros Hin. apply Ha. by right.
    + done.
    + destruct Hset as [Hst|[Hin|Hin]]; [| |by right; right].
      * left. apply applyEffect_mark; [|by left]. intros ->. apply Ha. by left.
      * apply elem_of_cons in Hin as [<-|Hin]; [|by right; left].
        left. apply applyEffect_mark; [done|by right].
  - unfold applyEffects. cbn [foldl]. apply IH.
    + done.
    + intros Hin. apply Hb. by right.
    + destruct Hset as [Hst|[Hin|Hin]]; [|by right; left|].
      * left. apply applyEffect_mark; [|by left]. intros ->. apply Hb. by left.
      * apply elem_of_cons in Hin as [<-|Hin]; [|by right; right].
        left. apply applyEffect_mark; [done|by right].
Qed.

(** X14: a manual refresh makes the validation effect run again.  Over a
    fetched, non-empty catalog, the click handler returns having removed
    the record, emptied the validated foods, cleared the mark and started
    its own pass (whose first probes do not touch the state); the render
    committed then has no validated foods and no mark.  When the refresh
    was asked from a state marked as validated or holding validated foods,
    this changes a dependency of the effect, whose guard holds: unless the
    connection is a constrained mobile one, the effect starts a second pass
    over the same window, so that each image of the window is probed twice;
    and however the calls of the two passes interleave, the catalog ends
    marked as validated.  Without a fetched item the refresh only empties
    the state and removes the record, and the effect stays silent. *)
Theorem refresh_starts_second_pass (isMobile : bool) (world world' : string → ImageOutcome)
    (closure st : State) (ls : Storage) (data : list FoodItem)
    (connection : option Connection) (now now' : Z) :
  (0 < length data →
   hasValidated st = true ∨ 0 < length (validatedFoods st) →
   let handler := [RemoveItem VALIDATION_KEY; SetHasValidated false; SetValidatedFoods [];
                   SetValidationProgress 0; SetIsValidating true;
                   SetValidationProgress 0] in
   let committed := applyEffects (st, ls) handler in
   ∃ rest second,
     clearCacheAndRevalidate isMobile world closure (Some data) now
     = Some (handler ++ rest) ∧
     probedUrls rest = img <$> window isMobile data ∧
     committed = ({| validatedFoods := []; isValidating := true; validationProgress := 0;
                     hasValidated := false |}, delete VALIDATION_KEY ls) ∧
     (hasValidated committed.1 ≠ hasValidated st ∨
      length (validatedFoods committed.1) ≠ length (validatedFoods st)) ∧
     validationEffect isMobile world' committed.1 (Some data) connection now' = Some second ∧
     (isMobile && (from_option saveData false connection
                   || isSlow (from_option effectiveType "" connection)) = false →
      probedUrls second = img <$> window isMobile data) ∧
     ∀ m, Interleaving rest second m → hasValidated (applyEffects committed m).1 = true) ∧
  (∀ resultData, from_option length 0 resultData = 0 →
   ∃ tr, clearCacheAndRevalidate isMobile world closure resultData now = Some tr ∧
     probedUrls tr = [] ∧
     applyEffects (st, ls) tr
     = ({| validatedFoods := []; isValidating := isValidating st; validationProgress := 0;
           hasValidated := false |}, delete VALIDATION_KEY ls) ∧
     validationEffect isMobile world' (applyEffects (st, ls) tr).1 resultData connection now'
     = Some []).
Proof.
  split.
  - intros Hdata Hdeps handler committed.
    destruct (validateImages_spec isMobile world closure data now)
      as (loop & Hpass & Hprobes & Hloop & _).
    assert (committed = ({| validatedFoods := []; isValidating := true;
                            validationProgress := 0; hasValidated := false |},
                         delete VALIDATION_KEY ls)) as Hcommitted by reflexivity.
    assert (∃ second,
              validationEffect isMobile world' committed.1 (Some data) connection now'
              = Some second ∧
              (isMobile && (from_option saveData false connection
                            || isSlow (from_option effectiveType "" connection)) = false →
               probedUrls second = img <$> window isMobile data) ∧
              (SetHasValidated false ∉ second) ∧ (SetHasValidated true ∈ second))
      as (second & Heffect & Hsecond & Hkeeps & Hsets).
    { rewrite Hcommitted. unfold validationEffect. cbn [fst validatedFoods hasValidated].
      rewrite (proj2 (Nat.ltb_lt _ _) Hdata). cbn [negb andb length Nat.eqb].
      destruct (isMobile && _) eqn:Hconstrained.
      - eexists. split; [done|]. split; [done|]. split.
        + intros Hin. repeat (apply elem_of_cons in Hin as [Hin|Hin]; [done|]).
          by apply elem_of_nil in Hin.
        + by left.
      - destruct (validateImages_spec isMobile world'
                    {| validatedFoods := []; isValidating := true; validationProgress := 0;
                       hasValidated := false |} data now')
          as (loop' & Hpass' & Hprobes' & Hloop' & _).
        rewrite Hpass'. csimpl. eexists. split; [done|]. split_and!.
        + intros _. cbn [probedUrls omap]. csimpl.
          fold (probedUrls (loop' ++
            [SetValidatedFoods (validFirstOrder isMobile world' data); SetIsValidating false;
             SetValidationProgress 100;
             SetItem VALIDATION_KEY {| foods := Some []; timestamp := Some now' |}])).
          rewrite probedUrls_app, Hprobes'. simpl. by rewrite app_nil_r.
        + intros Hin. repeat (apply elem_of_cons in Hin as [Hin|Hin]; [done|]).
          apply elem_of_app in Hin as [Hin|Hin].
          * by apply (loop_effects_keep_mark loop' false).
          * repeat (apply elem_of_cons in Hin as [Hin|Hin]; [done|]).
            by apply elem_of_nil in Hin.
        + right. by left. }
    exists (loop ++
            [SetValidatedFoods (validFirstOrder isMobile world data); SetIsValidating false;
             SetValidationProgress 100;
             SetItem VALIDATION_KEY
               {| foods := Some (validatedFoods closure); timestamp := Some now |}]), second.
    split_and!.
    + unfold clearCacheAndRevalidate. rewrite (proj2 (Nat.ltb_lt _ _) Hdata), Hpass.
      reflexivity.
    + rewrite probedUrls_app, Hprobes. simpl. by rewrite app_nil_r.
    + done.
    + rewrite Hcommitted. simpl. destruct Hdeps as [->|Hlen]; [by left|right; lia].
    + done.
    + done.
    + intros m Hm. apply (interleaving_mark _ _ _ _ Hm); [|done|by right; right].
      intros Hin. apply elem_of_app in Hin as [Hin|Hin].
      * by apply (loop_effects_keep_mark loop false).
      * repeat (apply elem_of_cons in Hin as [Hin|Hin]; [done|]).
        by apply elem_of_nil in Hin.
  - intros resultData Hnone. unfold clearCacheAndRevalidate, validationEffect.
    destruct resultData as [fetched|]; simpl in *.
    + rewrite Hnone. simpl. eexists. split_and!; done.
    + eexists. split_and!; done.
Qed.

(** A refresh over one dish, asked from a state that is marked as
    validated and lists the dish: the effect runs a pass of its own and
    probes the image of the dish again. *)
Lemma refresh_starts_second_pass_witness :
  let dish := Examples.food "1" "Cheeseburger" in
  let st := {| validatedFoods := [dish]; isValidating := false; validationProgress := 100;
               hasValidated := true |} in
  ∃ rest second,
    clearCacheAndRevalidate false Examples.world st (Some [dish]) 1000
    = Some ([RemoveItem VALIDATION_KEY; SetHasValidated false; SetValidatedFoods [];
             SetValidationProgress 0; SetIsValidating true; SetValidationProgress 0]
            ++ rest) ∧
    validationEffect false Examples.world
      {| validatedFoods := []; isValidating := true; validationProgress := 0;
         hasValidated := false |} (Some [dish]) None 1001 = Some second ∧
    probedUrls rest = ["https://img.example/1"] ∧
    probedUrls second = ["https://img.example/1"].
Proof.
  intros dish st.
  destruct (proj1 (refresh_starts_second_pass false Examples.world Examples.world st st ∅
                     [dish] None 1000 1001)
              ltac:(simpl; lia) ltac:(by left))
    as (rest & second & Hrefresh & Hrest & _ & _ & Heffect & Hsecond & _).
  exists rest, second. split_and!; [exact Hrefresh|exact Heffect|exact Hrest|].
  by apply Hsecond.
Defined.

(** X15: a record that does not parse heals itself.  The page load removes
    it, starts with no validated foods and not marked as validated, with
    the query enabled, and on a desktop the validation effect will run a
    pass once a catalog is fetched; a second read finds no record. *)
Theorem corrupt_record_is_purged (now : Z) (ls : Storage) (raw : string) :
  raw ≠ "" → ls !! VALIDATION_KEY = Some (Unparseable raw) →
  initState now ls
  = ({| validatedFoods := []; isValidating := false; validationProgress := 0;
        hasValidated := false |}, delete VALIDATION_KEY ls) ∧
  queryEnabled (initState now ls).1 = true ∧
  initState now (initState now ls).2 = initState now ls ∧
  ∀ world data, 0 < length data →
    ∃ tr, validationEffect false world (initState now ls).1 (Some data) None now = Some tr ∧
          probedUrls tr = img <$> window false data.
Proof.
  intros Hraw Hls.
  assert (initState now ls
          = ({| validatedFoods := []; isValidating := false; validationProgress := 0;
                hasValidated := false |}, delete VALIDATION_KEY ls)) as Hinit.
  { unfold initState, initValidatedFoods, initHasValidated. rewrite Hls.
    assert (truthy raw = true) as -> by (by destruct raw).
    by rewrite lookup_delete_eq. }
  rewrite Hinit. split_and!; try done.
  - unfold initState, initValidatedFoods, initHasValidated. simpl.
    by rewrite !lookup_delete_eq.
  - intros world data Hdata. simpl. unfold validationEffect.
    rewrite (proj2 (Nat.ltb_lt _ _) Hdata). simpl.
    destruct (validateImages_outputs false world
                {| validatedFoods := []; isValidating := false; validationProgress := 0;
                   hasValidated := false |} data now) as (tr & -> & Hprobed & _).
    csimpl. eexists. split; [done|]. done.
Qed.

(** A record that is not JSON is gone after the page load. *)
Lemma corrupt_record_is_purged_witness :
  let ls : Storage := {[ VALIDATION_KEY := Unparseable "{foods:" ]} in
  initState 1000 ls = (Examples.fresh, ∅).
Proof.
  intros ls.
  destruct (corrupt_record_is_purged 1000 ls "{foods:" ltac:(done) eq_refl) as [-> _].
  reflexivity.
Defined.

(** X16: a record without a timestamp never expires: whenever the page is
    loaded, its non-empty list is what the hook starts with, the record
    stays in the store, and the catalog counts as validated. *)
Theorem record_without_timestamp_never_expires (now : Z) (ls : Storage)
    (items : list FoodItem) :
  items ≠ [] →
  ls !! VALIDATION_KEY = Some (Json {| foods := Some items; timestamp := None |}) →
  initState now ls
  = ({| validatedFoods := items; isValidating := false; validationProgress := 0;
        hasValidated := true |}, ls) ∧
  queryEnabled (initState now ls).1 = false.
Proof.
  intros Hitems Hls. unfold initState, initValidatedFoods, initHasValidated, queryEnabled.
  rewrite Hls. simpl. destruct items as [|f items]; [done|]. simpl. by rewrite Hls.
Qed.

Lemma record_without_timestamp_never_expires_witness :
  let items := [Examples.food "1" "Cheeseburger"] in
  let ls : Storage :=
    {[ VALIDATION_KEY := Json {| foods := Some items; timestamp := None |} ]} in
  validatedFoods (initState 99999999999999 ls).1 = items.
Proof.
  intros items ls.
  destruct (record_without_timestamp_never_expires 99999999999999 ls items
              ltac:(done) eq_refl) as [-> _].
  reflexivity.
Defined.

(** X19: a page load that finds a record of at most 24 hours with a
    non-empty list starts with that list, marked as validated, and does not
    fetch; the hook then shows the list (without repeated keys), reports its
    length as [validCount] and 0 as [totalCount], and starts no pass. *)
Theorem cached_catalog_is_served (now T : Z) (ls : Storage) (items : list FoodItem) :
  items ≠ [] → (now - T ≤ DAY_MS)%Z →
  ls !! VALIDATION_KEY = Some (Json {| foods := Some items; timestamp := Some T |}) →
  let loaded := initState now ls in
  loaded.2 = ls ∧ validatedFoods loaded.1 = items ∧ hasValidated loaded.1 = true ∧
  queryEnabled loaded.1 = false ∧
  MenuData.data (useAllFoodsWithValidation loaded.1 None) = deduped items ∧
  validCount (useAllFoodsWithValidation loaded.1 None) = length items ∧
  totalCount (useAllFoodsWithValidation loaded.1 None) = 0 ∧
  ∀ isMobile world data connection now',
    validationEffect isMobile world loaded.1 data connection now' = Some [].
Proof.
  intros Hitems Hfresh Hls. unfold initState.
  rewrite (initValidatedFoods_fresh _ _ _ _ _ Hls Hfresh). simpl.
  unfold initHasValidated, queryEnabled. rewrite Hls.
  assert (isExpired now {| foods := Some items; timestamp := Some T |} = false) as ->.
  { apply not_true_iff_false. rewrite isExpired_spec. lia. }
  destruct items as [|f items]; [done|]. simpl. split_and!; try done.
  intros isMobile world data connection now'. unfold validationEffect. simpl.
  destruct data as [d|]; [|done]. by rewrite andb_false_r.
Qed.

Lemma cached_catalog_is_served_witness :
  let items := [Examples.dish 1; Examples.dish 0] in
  let ls : Storage :=
    {[ VALIDATION_KEY := Json {| foods := Some items; timestamp := Some 1000%Z |} ]} in
  MenuData.data (useAllFoodsWithValidation (initState 5000 ls).1 None) = items ∧
  totalCount (useAllFoodsWithValidation (initState 5000 ls).1 None) = 0.
Proof.
  intros items ls.
  destruct (cached_catalog_is_served 5000 1000 ls items ltac:(done)
              ltac:(unfold DAY_MS; lia) eq_refl)
    as (_ & _ & _ & _ & Hdata & _ & Htotal & _).
  split; [|exact Htotal]. rewrite Hdata. reflexivity.
Defined.

(** *** Batches of a pass *)

Lemma yields_app (tr1 tr2 : list Effect) : yields (tr1 ++ tr2) = yields tr1 + yields tr2.
Proof. unfold yields. by rewrite List.filter_app, length_app. Qed.

Lemma yields_probes (batch : list FoodItem) : yields (CheckImageUrl ∘ img <$> batch) = 0.
Proof. induction batch as [|f batch IH]; [done|]. by csimpl. Qed.

Lemma progressValues_probes (batch : list FoodItem) :
  progressValues (CheckImageUrl ∘ img <$> batch) = [].
Proof. induction batch as [|f batch IH]; [done|]. by csimpl. Qed.

(** On mobile the loop yields once per progress update, elsewhere never. *)
Lemma batchLoop_yields (isMobile : bool) (world : string → ImageOutcome) (fuel : nat)
    (toValidate : list FoodItem) (i : nat) (st st' : Loop) :
  batchLoop isMobile world fuel toValidate i st = Some st' →
  let k := if isMobile then 1 else 0 in
  yields (trace st') + k * length (progressValues (trace st))
  = yields (trace st) + k * length (progressValues (trace st')).
Proof.
  intros Hrun k. revert i st Hrun.
  induction fuel as [|fuel IH]; intros i st Hrun; simpl in Hrun;
    case_bool_decide; simplify_eq; try done.
  rewrite mapM_probeFood in Hrun. csimpl in Hrun. rewrite foldl_classify in Hrun.
  apply IH in Hrun. simpl in Hrun.
  rewrite !yields_app, !progressValues_app, yields_probes, progressValues_probes,
    !length_app in Hrun.
  subst k. destruct isMobile; unfold yields, progressValues in *; csimpl in *; lia.
Qed.

Lemma Checkpoints_length (i len step : nat) (log : list (nat * Q)) :
  0 < step → Checkpoints i len step log →
  len - i ≤ length log * step ∧ length log * step < len - i + step.
Proof.
  intros Hstep. revert i. induction log as [|[probed progress] log IH]; intros i Hlog.
  - simpl in *. lia.
  - destruct Hlog as (Hi & _ & _ & Hlog). apply IH in Hlog. simpl.
    destruct (length log) as [|n]; simpl in *; nia.
Qed.

(** X17: a validation pass runs one batch for every [batchSize] items of
    the window, the last one possibly short: at most 2 batches on desktop
    and at most 3 on mobile, none for an empty catalog; it sets the progress
    once before, once per batch and once after; on mobile it yields to the
    main thread once per batch, on desktop it never yields. *)
Theorem pass_runs_few_batches (isMobile : bool) (world : string → ImageOutcome)
    (closure : State) (foods : list FoodItem) (now : Z) :
  ∃ tr batches,
    validateImages isMobile world closure foods now = Some tr ∧
    length (progressValues tr) = batches + 2 ∧
    length (window isMobile foods) ≤ batches * batchSize isMobile ∧
    batches * batchSize isMobile < length (window isMobile foods) + batchSize isMobile ∧
    batches ≤ (if isMobile then 3 else 2) ∧
    (batches = 0 ↔ foods = []) ∧
    yields tr = (if isMobile then batches else 0).
Proof.
  destruct (validateImages_progressLog isMobile world closure foods now)
    as (tr & log & Htr & _ & Hvalues & Hcheck).
  exists tr, (length log).
  apply Checkpoints_length in Hcheck as [Hge Hlt]; [|apply batchSize_pos].
  rewrite Nat.sub_0_r in *.
  assert (length (progressValues tr) = length log + 2) as Hcount.
  { rewrite Hvalues. simpl. rewrite length_app, length_fmap. simpl. lia. }
  assert (length (window isMobile foods)
          = Nat.min (if isMobile then 30 else 80) (length foods)) as Hwindow.
  { unfold window, validateWindow. by rewrite length_take. }
  split_and!; try done.
  - unfold batchSize in *. destruct isMobile; lia.
  - pose proof (batchSize_pos isMobile). destruct foods as [|f foods].
    + simpl in *. split; [done|]. intros _. destruct isMobile; simpl in *; nia.
    + split; [|done]. intros Hzero. rewrite Hzero in Hge.
      destruct isMobile; simpl in *; lia.
  - unfold validateImages in Htr.
    destruct (batchLoop _ _ _ _ _ _) as [st'|] eqn:Hloop; [|done].
    csimpl in Htr. injection Htr as <-.
    apply batchLoop_yields in Hloop.
    change (length (progressValues (trace {| validFirst := []; invalidWithinValidated := [];
                                             trace := [SetValidationProgress 0] |})))
      with 1 in Hloop.
    change (yields (trace {| validFirst := []; invalidWithinValidated := [];
                             trace := [SetValidationProgress 0] |})) with 0 in Hloop.
    rewrite progressValues_app, length_app in Hcount.
    change (length (progressValues [SetValidatedFoods ?a; ?b; SetValidationProgress ?c; ?d]))
      with 1 in Hcount.
    rewrite yields_app.
    change (yields [SetValidatedFoods ?a; ?b; SetValidationProgress ?c; ?d]) with 0.
    clear -Hloop Hcount. destruct isMobile; lia.
Qed.

(** *** What the page gets *)

Lemma aggregated_keys_NoDup (l : list FoodItem) (r : Results) :
  l ≡ₚ getAllFoods r → NoDup (dedupKey <$> l).
Proof.
  intros Hl. apply NoDup_uniqueId_dedupKey.
  - rewrite Hl. eapply Forall_impl; [apply getAllFoods_stamped|apply stamped_truthy].
  - rewrite Hl. apply getAllFoods_NoDup.
Qed.

(** X18: from aggregation to the page.  For the catalog [getAllFoods]
    returns, the hook shows, before validation, the catalog as aggregated,
    and after a validation pass exactly the valid items of the window, then
    the invalid ones, then the items beyond the window: the de-duplication
    of the hook removes nothing. *)
Theorem hook_shows_valid_first (r : Results) (isMobile : bool)
    (world : string → ImageOutcome) (ls : Storage) (now : Z)
    (validating validated : bool) (progress : Q) :
  let catalog := getAllFoods r in
  let st := {| validatedFoods := []; isValidating := validating;
               validationProgress := progress; hasValidated := validated |} in
  MenuData.data (useAllFoodsWithValidation st (Some catalog)) = catalog ∧
  ∃ tr, validateImages isMobile world st catalog now = Some tr ∧
    MenuData.data (useAllFoodsWithValidation (applyEffects (st, ls) tr).1 (Some catalog))
    = validFirstOrder isMobile world catalog.
Proof.
  intros catalog st. split.
  - simpl. apply deduped_id. by apply (aggregated_keys_NoDup _ r).
  - destruct (validateImages_final isMobile world st st ls catalog now)
      as (tr & Htr & Hfinal).
    exists tr. split; [done|]. rewrite Hfinal. simpl.
    pose proof (validFirstOrder_perm isMobile world catalog) as Hperm.
    destruct (validFirstOrder isMobile world catalog) as [|f l] eqn:Horder; simpl.
    + apply Permutation_nil_l in Hperm. by rewrite <-Hperm.
    + apply deduped_id. by apply (aggregated_keys_NoDup _ r).
Qed.

End HookFacts.

(** ** The cart of the menu page *)
Section CartFacts.
Import Api MenuData MenuPage.

Lemma find_hasId_None (foodId : string) (cart : list CartItem) :
  List.find (hasId foodId) cart = None ↔ foodId ∉ (id ∘ food <$> cart).
Proof.
  induction cart as [|item cart IH]; csimpl.
  - split; [intros _ ?%elem_of_nil|]; done.
  - unfold hasId at 1. rewrite not_elem_of_cons. case_bool_decide as Hid.
    + split; [done|]. by intros [? _].
    + rewrite IH. split; [by intros ?; split|by intros [_ ?]].
Qed.

Lemma find_hasId_Some (foodId : string) (cart : list CartItem) (item : CartItem) :
  List.find (hasId foodId) cart = Some item → item ∈ cart ∧ id (food item) = foodId.
Proof.
  intros [Hin Hid]%find_some. split; [by apply list_elem_of_In|].
  unfold hasId in Hid. by apply bool_decide_eq_true in Hid.
Qed.

Lemma map_quantity_ids (change : CartItem → Z) (test : CartItem → bool)
    (cart : list CartItem) :
  food <$> map (λ item, if test item
                        then {| food := food item; quantity := change item |}
                        else item) cart
  = food <$> cart.
Proof.
  induction cart as [|item cart IH]; [done|]. csimpl.
  rewrite <-IH. by destruct (test item).
Qed.

Lemma ids_of_foods (cart : list CartItem) : id ∘ food <$> cart = id <$> (food <$> cart).
Proof. by rewrite <-list_fmap_compose. Qed.

Lemma addToCart_inv (f : FoodItem) (cart : list CartItem) :
  CartInv cart → CartInv (addToCart f cart).
Proof.
  intros [Hnd Hq]. unfold addToCart.
  destruct (List.find _ cart) as [existing|] eqn:Hfind; split.
  - by rewrite ids_of_foods, map_quantity_ids, <-ids_of_foods.
  - apply Forall_forall. intros item (item0 & <- & Hin)%list_elem_of_In%in_map_iff.
    apply list_elem_of_In in Hin. rewrite Forall_forall in Hq. specialize (Hq item0 Hin).
    destruct (hasId (id f) item0); simpl; lia.
  - rewrite fmap_app. apply NoDup_app. split_and!; [done| |apply NoDup_singleton].
    intros i Hi ->%list_elem_of_singleton. by apply find_hasId_None in Hfind.
  - apply Forall_app. split; [done|]. by apply Forall_singleton.
Qed.

Lemma removeFromCart_inv (foodId : string) (cart : list CartItem) :
  CartInv cart → CartInv (removeFromCart foodId cart) ∧
  foodId ∉ (id ∘ food <$> removeFromCart foodId cart).
Proof.
  intros [Hnd Hq]. unfold removeFromCart. split; [split|].
  - eapply sublist_NoDup; [exact Hnd|]. apply fmap_sublist, filter_sublist.
  - apply Forall_forall. intros item [Hin _]%list_elem_of_In%filter_In.
    rewrite Forall_forall in Hq. by apply Hq, list_elem_of_In.
  - intros (item & Hid & Hin)%list_elem_of_fmap.
    apply list_elem_of_In, filter_In in Hin as [_ Hkeep].
    unfold hasId in Hkeep. rewrite bool_decide_eq_true_2 in Hkeep; done.
Qed.

Lemma updateQuantity_inv (foodId : string) (newQuantity : Z) (cart : list CartItem) :
  CartInv cart → CartInv (updateQuantity foodId newQuantity cart).
Proof.
  intros Hinv. unfold updateQuantity. destruct (Z.leb_spec newQuantity 0).
  - by apply removeFromCart_inv.
  - destruct Hinv as [Hnd Hq]. split.
    + by rewrite ids_of_foods, map_quantity_ids, <-ids_of_foods.
    + apply Forall_forall. intros item (item0 & <- & Hin)%list_elem_of_In%in_map_iff.
      apply list_elem_of_In in Hin. rewrite Forall_forall in Hq. specialize (Hq item0 Hin).
      destruct (hasId foodId item0); simpl; lia.
Qed.

(** X20: every cart the page can reach, from the empty cart through
    [addToCart], [removeFromCart], [updateQuantity] and [clearCart], holds no
    raw id twice and only quantities of at least one; a removed id is no
    longer in the cart, and [updateQuantity] with a quantity of 0 or less
    removes the item. *)
Theorem cart_invariant (cart : list CartItem) :
  CartInv [] ∧
  (CartInv cart →
   (∀ f, CartInv (addToCart f cart) ∧ id f ∈ (id ∘ food <$> addToCart f cart)) ∧
   (∀ foodId, CartInv (removeFromCart foodId cart) ∧
              foodId ∉ (id ∘ food <$> removeFromCart foodId cart)) ∧
   (∀ foodId newQuantity,
      CartInv (updateQuantity foodId newQuantity cart) ∧
      ((newQuantity ≤ 0)%Z →
         updateQuantity foodId newQuantity cart = removeFromCart foodId cart)) ∧
   CartInv (clearCart cart)).
Proof.
  split; [split; [apply NoDup_nil_2|done]|]. intros Hinv. split_and!.
  - intros f. split; [by apply addToCart_inv|]. unfold addToCart.
    destruct (List.find _ cart) as [existing|] eqn:Hfind.
    + rewrite ids_of_foods, map_quantity_ids, <-ids_of_foods.
      apply find_hasId_Some in Hfind as [Hin <-]. by apply (list_elem_of_fmap_2 (id ∘ food)).
    + rewrite fmap_app. apply elem_of_app. right. by left.
  - intros foodId. by apply removeFromCart_inv.
  - intros foodId newQuantity. split; [by apply updateQuantity_inv|].
    intros Hq. unfold updateQuantity. by rewrite (proj2 (Z.leb_le _ _) Hq).
  - split; [apply NoDup_nil_2|done].
Qed.

(** Two cheeseburgers and a pizza, then the pizza set to 0. *)
Lemma cart_invariant_witness :
  let burger := Examples.food "1" "Cheeseburger" in
  let pizza := Examples.food "2" "Pizza" in
  let cart := addToCart pizza (addToCart burger (addToCart burger [])) in
  cart = [mkCartItem burger 2; mkCartItem pizza 1] ∧
  CartInv (updateQuantity "2" 0 cart) ∧
  updateQuantity "2" 0 cart = [mkCartItem burger 2].
Proof.
  intros burger pizza cart.
  pose proof (proj1 (cart_invariant [])) as H0.
  pose proof (proj1 (proj1 (proj2 (cart_invariant _) H0) burger)) as H1.
  pose proof (proj1 (proj1 (proj2 (cart_invariant _) H1) burger)) as H2.
  pose proof (proj1 (proj1 (proj2 (cart_invariant _) H2) pizza)) as Hinv.
  destruct (proj2 (cart_invariant cart) Hinv) as (_ & _ & Hupdate & _).
  split_and!; [reflexivity|apply Hupdate|reflexivity].
Defined.

(** *** Counting the cart *)

Lemma count_foldl (a : Z) (cart : list CartItem) :
  foldl (λ count item, (count + quantity item)%Z) a cart = (a + getCartItemCount cart)%Z.
Proof.
  unfold getCartItemCount. revert a. induction cart as [|item cart IH]; intros a; simpl.
  - lia.
  - rewrite (IH (a + quantity item)%Z), (IH (0 + quantity item)%Z). lia.
Qed.

Lemma count_cons (item : CartItem) (cart : list CartItem) :
  getCartItemCount (item :: cart) = (quantity item + getCartItemCount cart)%Z.
Proof. unfold getCartItemCount at 1. simpl. by rewrite count_foldl. Qed.

Lemma count_app (cart1 cart2 : list CartItem) :
  getCartItemCount (cart1 ++ cart2)
  = (getCartItemCount cart1 + getCartItemCount cart2)%Z.
Proof.
  induction cart1 as [|item cart1 IH]; [done|].
  rewrite <-app_comm_cons, !count_cons, IH. lia.
Qed.

(** Changing the quantity of the item with a given id. *)
Lemma count_change (foodId : string) (change : CartItem → Z) (cart : list CartItem) :
  NoDup (id ∘ food <$> cart) →
  getCartItemCount
    (map (λ item, if hasId foodId item
                  then {| food := food item; quantity := change item |}
                  else item) cart)
  = (getCartItemCount cart - quantityOf foodId cart
     + from_option change 0 (List.find (hasId foodId) cart))%Z.
Proof.
  unfold quantityOf. induction cart as [|item cart IH]; intros Hnd; [done|].
  rewrite fmap_cons in Hnd. apply NoDup_cons in Hnd as [Hfresh Hnd].
  cbn [map List.find]. rewrite !count_cons, (IH Hnd).
  destruct (hasId foodId item) eqn:Hid; simpl; [|lia].
  apply bool_decide_eq_true in Hid. rewrite <-Hid in *.
  apply find_hasId_None in Hfresh. unfold compose in Hfresh. rewrite Hfresh. simpl. lia.
Qed.

Lemma quantityOf_change (foodId other : string) (change : CartItem → Z)
    (cart : list CartItem) :
  quantityOf other
    (map (λ item, if hasId foodId item
                  then {| food := food item; quantity := change item |}
                  else item) cart)
  = if bool_decide (other = foodId)
    then from_option change 0%Z (List.find (hasId foodId) cart)
    else quantityOf other cart.
Proof.
  unfold quantityOf. induction cart as [|item cart IH]; [by case_bool_decide|].
  cbn [map List.find].
  assert (hasId other (if hasId foodId item
                       then {| food := food item; quantity := change item |}
                       else item) = hasId other item) as ->
    by (by destruct (hasId foodId item)).
  destruct (hasId foodId item) eqn:Hf, (hasId other item) eqn:Ho;
    unfold hasId in Hf, Ho;
    try apply bool_decide_eq_true in Hf; try apply bool_decide_eq_false in Hf;
    try apply bool_decide_eq_true in Ho; try apply bool_decide_eq_false in Ho;
    case_bool_decide as Heq; subst; try done; try congruence.
Qed.

Lemma count_remove (foodId : string) (cart : list CartItem) :
  NoDup (id ∘ food <$> cart) →
  getCartItemCount (removeFromCart foodId cart)
  = (getCartItemCount cart - quantityOf foodId cart)%Z.
Proof.
  unfold removeFromCart, quantityOf.
  induction cart as [|item cart IH]; intros Hnd; [done|].
  rewrite fmap_cons in Hnd. apply NoDup_cons in Hnd as [Hfresh Hnd].
  cbn [List.filter List.find]. destruct (hasId foodId item) eqn:Hid; simpl.
  - apply bool_decide_eq_true in Hid. rewrite <-Hid in *.
    rewrite count_cons, (IH Hnd). apply find_hasId_None in Hfresh.
    unfold compose in Hfresh. rewrite Hfresh. simpl. lia.
  - rewrite !count_cons, (IH Hnd). lia.
Qed.

Lemma find_app_None {A} (p : A → bool) (l1 l2 : list A) :
  List.find p l1 = None → List.find p (l1 ++ l2) = List.find p l2.
Proof.
  induction l1 as [|x l1 IH]; [done|]. simpl. destruct (p x); [done|apply IH].
Qed.

(** X21: the badge follows the cart.  In a reachable cart, adding an item
    raises the item count and the quantity held of its raw id by one;
    removing an id lowers the count by the quantity held of it; setting a
    positive quantity for an id the cart holds replaces the quantity held;
    other ids keep their quantities; and the count is at least the number
    of lines of the cart. *)
Theorem cart_counts (cart : list CartItem) :
  CartInv cart →
  (∀ f, getCartItemCount (addToCart f cart) = (getCartItemCount cart + 1)%Z ∧
        quantityOf (id f) (addToCart f cart) = (quantityOf (id f) cart + 1)%Z) ∧
  (∀ foodId,
     getCartItemCount (removeFromCart foodId cart)
     = (getCartItemCount cart - quantityOf foodId cart)%Z) ∧
  (∀ foodId newQuantity, (0 < newQuantity)%Z →
     getCartItemCount (updateQuantity foodId newQuantity cart)
     = (getCartItemCount cart - quantityOf foodId cart
        + if bool_decide (foodId ∈ (id ∘ food <$> cart)) then newQuantity else 0)%Z ∧
     ∀ other, other ≠ foodId →
       quantityOf other (updateQuantity foodId newQuantity cart) = quantityOf other cart) ∧
  (Z.of_nat (length cart) ≤ getCartItemCount cart)%Z.
Proof.
  intros [Hnd Hq]. split_and!.
  - intros f. unfold addToCart, quantityOf.
    destruct (List.find (hasId (id f)) cart) as [existing|] eqn:Hfind.
    + split.
      * rewrite count_change by done. unfold quantityOf. rewrite Hfind. simpl. lia.
      * fold (quantityOf (id f) (map (λ item, if hasId (id f) item
            then {| food := food item; quantity := quantity item + 1 |} else item) cart)).
        rewrite (quantityOf_change (id f) (id f) (λ item, (quantity item + 1)%Z)).
        by rewrite bool_decide_eq_true_2, Hfind.
    + split.
      * rewrite count_app, count_cons.
        change (getCartItemCount []) with 0%Z. simpl. lia.
      * rewrite find_app_None by done. simpl. unfold hasId. simpl.
        by rewrite bool_decide_eq_true_2.
  - intros foodId. by apply count_remove.
  - intros foodId newQuantity Hpos. unfold updateQuantity.
    rewrite (proj2 (Z.leb_gt _ _) Hpos). split.
    + rewrite (count_change foodId (λ _, newQuantity)) by done. f_equal.
      destruct (List.find _ cart) as [existing|] eqn:Hfind; simpl.
      * apply find_hasId_Some in Hfind as [Hin <-].
        rewrite bool_decide_eq_true_2; [done|]. by apply (list_elem_of_fmap_2 (id ∘ food)).
      * apply find_hasId_None in Hfind. by rewrite bool_decide_eq_false_2.
    + intros other Hother.
      rewrite (quantityOf_change foodId other (λ _, newQuantity)).
      by rewrite bool_decide_eq_false_2.
  - clear Hnd. induction Hq as [|item cart Hitem _ IH]; [done|].
    rewrite count_cons. simpl. lia.
Qed.

(** Two cheeseburgers and a pizza: three items, and one more cheeseburger
    makes it four, three of them cheeseburgers. *)
Lemma cart_counts_witness :
  let burger := Examples.food "1" "Cheeseburger" in
  let pizza := Examples.food "2" "Pizza" in
  let cart := [mkCartItem burger 2; mkCartItem pizza 1] in
  getCartItemCount cart = 3%Z ∧ getCartItemCount (addToCart burger cart) = 4%Z ∧
  quantityOf "1" (addToCart burger cart) = 3%Z.
Proof.
  intros burger pizza cart.
  assert (CartInv cart) as Hinv.
  { split; [|repeat constructor; simpl; lia].
    apply NoDup_cons. split; [by intros [=]%list_elem_of_singleton|apply NoDup_singleton]. }
  destruct (proj1 (cart_counts cart Hinv) burger) as (Hcount & Hheld).
  split_and!; [reflexivity|by rewrite Hcount|]. change "1" with (id burger).
  by rewrite Hheld.
Defined.

(** X22: the cart tells items apart by their raw id alone.  Adding an item
    whose raw id the cart already holds, be it an item of another category,
    leaves the items of the cart as they are and raises the quantity held
    under that id; the item added is not in the cart unless it was. *)
Theorem cart_merges_equal_raw_ids (f : FoodItem) (cart : list CartItem) :
  id f ∈ (id ∘ food <$> cart) →
  food <$> addToCart f cart = food <$> cart ∧
  length (addToCart f cart) = length cart ∧
  (f ∉ (food <$> cart) → f ∉ (food <$> addToCart f cart)) ∧
  quantityOf (id f) (addToCart f cart) = (quantityOf (id f) cart + 1)%Z.
Proof.
  intros Hheld. unfold addToCart.
  destruct (List.find (hasId (id f)) cart) as [existing|] eqn:Hfind.
  - split_and!.
    + apply map_quantity_ids.
    + by rewrite length_map.
    + by rewrite map_quantity_ids.
    + rewrite (quantityOf_change (id f) (id f) (λ item, (quantity item + 1)%Z)).
      unfold quantityOf. by rewrite bool_decide_eq_true_2, Hfind.
  - by apply find_hasId_None in Hfind.
Qed.

(** The burger with raw id 5 is in the cart; the pizza with raw id 5 is
    added: the cart holds two burgers and no pizza. *)
Lemma cart_merges_equal_raw_ids_witness :
  let burger := stamp 0 (Examples.food "5" "Cheeseburger") in
  let pizza := stamp 1 (Examples.food "5" "Margherita") in
  addToCart pizza [mkCartItem burger 1] = [mkCartItem burger 2].
Proof.
  intros burger pizza.
  destruct (cart_merges_equal_raw_ids pizza [mkCartItem burger 1] ltac:(by left))
    as (Hfoods & _).
  reflexivity.
Defined.

End CartFacts.

(** ** The list of the menu page *)
Section MenuPageFacts.
Import Api MenuData MenuPage.

Lemma filter_all {A} (p : A → bool) (l : list A) :
  (∀ x, p x = true) → List.filter p l = l.
Proof.
  intros Hp. induction l as [|x l IH]; [done|]. simpl. by rewrite Hp, IH.
Qed.

(** X23: the filter of the menu page.  With the category "all" and an empty
    query it shows the whole list; with "all" and a non-empty query free of
    blanks at its ends it shows what [searchFoods] returns; with any other
    category it shows those of these items whose lower-cased name or
    description contains the category name without its last letter, whatever
    the category the aggregator stamped on them; so a category never shows
    more than "all" does. *)
Theorem filteredFoods_spec (allFoods : list FoodItem) (searchQuery selectedCategory : string) :
  filteredFoods allFoods "" "all" = allFoods ∧
  (searchQuery ≠ "" → trim searchQuery = searchQuery →
     filteredFoods allFoods searchQuery "all" = searchFoods searchQuery (Some allFoods)) ∧
  filteredFoods allFoods searchQuery selectedCategory
    `sublist_of` filteredFoods allFoods searchQuery "all" ∧
  (selectedCategory ≠ "all" →
   ∀ f, f ∈ filteredFoods allFoods searchQuery selectedCategory ↔
        f ∈ filteredFoods allFoods searchQuery "all" ∧
        (substring_of (dropLast selectedCategory) (toLowerCase (name f)) ∨
         substring_of (dropLast selectedCategory) (toLowerCase (dsc f)))).
Proof.
  unfold filteredFoods. split_and!.
  - apply filter_all. intros f. unfold shown. simpl. by rewrite includes_empty.
  - intros Hq Htrim. unfold searchFoods.
    assert (truthy searchQuery = true) as -> by (by destruct searchQuery).
    simpl. by rewrite <-toLowerCase_trim, Htrim.
  - unfold shown. case_bool_decide as Hcat; [by rewrite bool_decide_eq_true_2|].
    rewrite bool_decide_eq_true_2 by done.
    rewrite <-(filter_filter_andb
                 (λ f, includes (toLowerCase (name f)) (dropLast selectedCategory)
                       || includes (toLowerCase (dsc f)) (dropLast selectedCategory))).
    apply filter_sublist.
  - intros Hcat f. rewrite !list_elem_of_In, !filter_In. unfold shown.
    rewrite bool_decide_eq_false_2 by done. rewrite bool_decide_eq_true_2 by done.
    rewrite andb_true_iff, (orb_true_iff (includes _ (dropLast _))), !includes_spec.
    tauto.
Qed.

(** The query "burger" under "all" is the search for "burger"; under
    "pizzas" the cheeseburger is not shown. *)
Lemma filteredFoods_spec_witness :
  let allFoods := [Examples.food "1" "Cheeseburger"; Examples.food "2" "Pizza"] in
  filteredFoods allFoods "burger" "all" = [Examples.food "1" "Cheeseburger"] ∧
  filteredFoods allFoods "" "pizzas" = [Examples.food "2" "Pizza"].
Proof.
  intros allFoods.
  destruct (filteredFoods_spec allFoods "burger" "all") as (_ & Hsearch & _).
  split; [|reflexivity]. rewrite Hsearch; [reflexivity|done|reflexivity].
Defined.

(** X24: the time left that the page displays for the cache record is never
    negative and is positive exactly while less than 24 hours have passed
    since the record was written; once the record counts as expired it is
    0; at exactly 24 hours it is 0 although the record is still served. *)
Theorem cacheExpiration_spec (T now : Z) (items : list FoodItem) (ls : Storage) :
  let record := {| foods := Some items; timestamp := Some T |} in
  (0 ≤ cacheExpiration T now)%Z ∧
  ((0 < cacheExpiration T now)%Z ↔ (now - T < DAY_MS)%Z) ∧
  (isExpired now record = true → cacheExpiration T now = 0%Z) ∧
  cacheExpiration T (T + DAY_MS) = 0%Z ∧
  (ls !! VALIDATION_KEY = Some (Json record) →
   initValidatedFoods VALIDATION_KEY (T + DAY_MS) ls = (items, ls)).
Proof.
  intros record. unfold cacheExpiration. split_and!; try lia.
  - unfold record. rewrite isExpired_spec. lia.
  - intros Hls. eapply initValidatedFoods_fresh; [done|lia].
Qed.

Lemma cacheExpiration_spec_witness :
  let items := [Examples.food "1" "Cheeseburger"] in
  let ls : Storage :=
    {[ VALIDATION_KEY := Json {| foods := Some items; timestamp := Some 1000%Z |} ]} in
  cacheExpiration 1000 (1000 + 86400000) = 0%Z ∧
  initValidatedFoods VALIDATION_KEY (1000 + 86400000) ls = (items, ls).
Proof.
  intros items ls.
  destruct (cacheExpiration_spec 1000 0 items ls) as (_ & _ & _ & Hzero & Hserved).
  split; [exact Hzero|]. by apply Hserved.
Defined.

Lemma foldl_dedupStep_keys (l : list FoodItem) (out : list FoodItem) (seen : gset string) :
  DedupInv (out, seen) →
  ∀ k, k ∈ dedupKey <$> (foldl dedupStep (out, seen) l).1 ↔
       k ∈ dedupKey <$> out ∨ k ∈ dedupKey <$> l.
Proof.
  revert out seen. induction l as [|f l IH]; intros out seen Hinv k.
  - simpl. rewrite elem_of_nil. tauto.
  - cbn [foldl]. pose proof (dedupStep_inv (out, seen) f Hinv) as Hinv'.
    destruct Hinv as [_ Hseen]. simpl in Hseen.
    unfold dedupStep in *. case_bool_decide as Hfresh.
    + rewrite (IH _ _ Hinv'), !fmap_app, !fmap_cons, fmap_nil, elem_of_app.
      rewrite !elem_of_cons, elem_of_nil. tauto.
    + rewrite (IH _ _ Hinv'), fmap_cons, elem_of_cons.
      apply Hseen in Hfresh.
      split; [tauto|]. intros [?|[->|?]]; tauto.
Qed.

(** X25: the de-duplication of the hook keeps one item for every key
    [uniqueId || id] of its input and nothing else: the output is a sublist
    of the input without repeated keys, it has the same keys, it starts with
    the first item of the input, and de-duplicating it again changes
    nothing. *)
Theorem deduped_keeps_every_key (finalData : list FoodItem) :
  deduped finalData `sublist_of` finalData ∧
  NoDup (dedupKey <$> deduped finalData) ∧
  (∀ k, k ∈ dedupKey <$> deduped finalData ↔ k ∈ dedupKey <$> finalData) ∧
  head (deduped finalData) = head finalData ∧
  deduped (deduped finalData) = deduped finalData.
Proof.
  split_and!.
  - apply deduped_sublist.
  - apply deduped_NoDup.
  - intros k. unfold deduped. rewrite foldl_dedupStep_keys.
    + simpl. rewrite elem_of_nil. tauto.
    + split; simpl; [apply NoDup_nil_2|set_solver].
  - unfold deduped. destruct finalData as [|f l]; [done|]. simpl.
    rewrite bool_decide_eq_true_2 by set_solver.
    by destruct (foldl_dedupStep_sublist l [f] ({[dedupKey f]} ∪ ∅)) as (kept & -> & _).
  - apply deduped_id, deduped_NoDup.
Qed.

End MenuPageFacts.
